(** * bb-code-parser: the core of [bbcodeparser_py3kplus.py]

    A shallow embedding of the parser core (classes [MultiTokenizer],
    [Token], [BBCodeParser]) and of the handlers the examples use.

    Conventions of the embedding.
    - Python [str] is [string], whose characters are the 256 of one
      byte: the strings of the embedding are the Python strings over
      those, and lengths and positions count characters, as Python's do.
      [None]-able values are [option]s; the
      value [-1] returned by [find] / [rfind] and by the [_find_*]
      helpers is [None].
    - A statement that raises is modelled by the exception it raises in
      Python 3: calling a method that was declared without [self] on an
      instance is a [TypeError], so is calling an [int], ordering [None]
      against an [int], or indexing a list with [None]; reading an
      attribute that a [str] does not have is an [AttributeError]; an
      unbound name is a [NameError]; a missing dictionary key is a
      [KeyError]; an index past the end of a list is an [IndexError].
    - Line 400 of the source ([queue.append(new Token(...))]) is not
      Python syntax.  The statement sits behind the call on line 399,
      which raises before line 400 is reached, so the control flow of
      the embedding does not depend on how line 400 is read.
    - Loops over [range] are recursions over the list of indices; the two
      [while] loops carry fuel, and running out of fuel is the outcome
      [Spin].
    - Handlers are records of the [BBCode] interface.  The table of
      [_setup_default_codes] is an argument of [__init__]; of its classes
      the embedding writes out the two GLOBAL handlers and the handlers
      of [b], [i], [li], [*], [left], [center] and [right]. *)

From Stdlib Require Import String Ascii ZArith Lia.
From stdpp Require Import base option list gmap strings.

Local Open Scope string_scope.
Local Open Scope list_scope.

(** ** Python strings *)

Module PyStr.

(** [s[a:b]] for [0 <= a <= b]; the slice is clamped to the string. *)
Definition slice (s : string) (a b : nat) : string :=
  String.substring a (b - a) s.

(** [s[a:]] *)
Definition slice_from (s : string) (a : nat) : string :=
  String.substring a (String.length s - a) s.

(** Scan of the suffix [s] that starts at absolute index [k]. *)
Fixpoint find_at (sub s : string) (k : nat) : option nat :=
  if String.prefix sub s then Some k
  else match s with
       | EmptyString => None
       | String _ s' => find_at sub s' (S k)
       end.

(** [s.find(sub, start)]; [None] stands for [-1]. *)
Definition find (s sub : string) (start : nat) : option nat :=
  if (String.length s <? start)%nat then None
  else find_at sub (slice_from s start) start.

(** Last index at which [sub] occurs in the suffix [s] starting at [k]. *)
Fixpoint rfind_at (sub s : string) (k : nat) (last : option nat) : option nat :=
  let last' := if String.prefix sub s then Some k else last in
  match s with
  | EmptyString => last'
  | String _ s' => rfind_at sub s' (S k) last'
  end.

(** [s.rfind(sub)] *)
Definition rfind (s sub : string) : option nat := rfind_at sub s 0 None.

(** Truth value of an optional string: [None] and [''] are false. *)
Definition truthy (o : option string) : bool :=
  match o with
  | Some s => negb (String.eqb s "")
  | None => false
  end.

End PyStr.

(** ** Exceptions and control flow *)

Inductive exn := TypeError | KeyError | AttributeError | NameError | IndexError.

(** Outcome of a block of statements inside a function body: fall through
    with a value, [return] a string from the enclosing function, raise,
    or loop forever. *)
Inductive flow (A : Type) :=
| Next (a : A)
| Return (s : string)
| Raise (e : exn)
| Spin.
Arguments Next {A} a.
Arguments Return {A} s.
Arguments Raise {A} e.
Arguments Spin {A}.

#[global] Instance flow_ret : MRet flow := fun A a => Next a.
#[global] Instance flow_bind : MBind flow := fun A B k m =>
  match m with
  | Next a => k a
  | Return s => Return s
  | Raise e => Raise e
  | Spin => Spin
  end.

(** Result of a call. *)
Inductive result :=
| Ok (s : string)
| Exc (e : exn)
| NoResult.

Definition run (m : flow string) : result :=
  match m with
  | Next s | Return s => Ok s
  | Raise e => Exc e
  | Spin => NoResult
  end.

(** ** [class MultiTokenizer] *)

Record MultiTokenizer := {
  tk_input : string;
  tk_length : nat;
  tk_position : nat
}.

Module Tokenizer.

(** [__init__(self, tinput='', position=0)] *)
Definition init (tinput : string) : MultiTokenizer :=
  {| tk_input := tinput; tk_length := String.length tinput; tk_position := 0 |}.

(** [def is_exhausted():] takes no [self]; the call
    [tokenizer.is_exhausted()] passes one argument. *)
Definition is_exhausted (self : MultiTokenizer) : flow bool := Raise TypeError.

(** [def position_to_end_token():] takes no [self] either. *)
Definition position_to_end_token (self : MultiTokenizer) : flow string :=
  Raise TypeError.

Definition has_next_token (self : MultiTokenizer) (delimiter : string) : bool :=
  bool_decide (PyStr.find (tk_input self) delimiter
                 (Nat.min (tk_length self) (tk_position self)) <> None).

(** Returns the token ([None] past the end) and the advanced tokenizer. *)
Definition next_token (self : MultiTokenizer) (delimiter : string)
  : option string * MultiTokenizer :=
  if (tk_length self <=? tk_position self)%nat then (None, self)
  else
    let index := match PyStr.find (tk_input self) delimiter (tk_position self) with
                 | Some i => i
                 | None => tk_length self
                 end in
    (Some (PyStr.slice (tk_input self) (tk_position self) index),
     {| tk_input := tk_input self; tk_length := tk_length self;
        tk_position := index + 1 |}).

(** [reset(self)] *)
Definition reset (self : MultiTokenizer) : MultiTokenizer :=
  {| tk_input := tk_input self; tk_length := tk_length self; tk_position := 0 |}.

End Tokenizer.

(** ** [class Token] *)

Inductive TType := NONE | CODE_START | CODE_END | CONTENT.
Inductive Status := VALID | INVALID | NOTALLOWED | NOIMPLFOUND | UNDETERMINED.

#[global] Instance TType_eq_dec : EqDecision TType.
Proof. solve_decision. Defined.
#[global] Instance Status_eq_dec : EqDecision Status.
Proof. solve_decision. Defined.

Record Token := {
  ttype : TType;
  content : string;
  status : Status;
  argument : option string;
  matches : option nat   (* matching start/end code index *)
}.

#[global] Instance Token_eq_dec : EqDecision Token.
Proof. solve_decision. Defined.

(** [Token.__init__(self, ttype, content, argument=None)] *)
Definition mkToken (ty : TType) (c : string) (arg : option string) : Token :=
  {| ttype := ty; content := c;
     status := if decide (ty = CONTENT) then VALID else UNDETERMINED;
     argument := arg; matches := None |}.

Definition with_ttype (ty : TType) (t : Token) : Token :=
  {| ttype := ty; content := content t; status := status t;
     argument := argument t; matches := matches t |}.
Definition with_status (st : Status) (t : Token) : Token :=
  {| ttype := ttype t; content := content t; status := st;
     argument := argument t; matches := matches t |}.
Definition with_matches (m : option nat) (t : Token) : Token :=
  {| ttype := ttype t; content := content t; status := status t;
     argument := argument t; matches := m |}.

(** ** [class BBCode]: the interface of a handler *)

Inductive PyVal := PyStr (s : string) | PyBool (b : bool) | PyInt (z : Z) | PyNone.

Record BBCode := {
  get_code_name : string;
  get_display_name : string;
  needs_end : bool;
  can_have_code_content : bool;
  can_have_argument : bool;
  must_have_argument : bool;
  get_auto_close_code_on_open : option string;
  get_auto_close_code_on_close : option string;
  is_valid_argument : gmap string PyVal -> option string -> bool;
  is_valid_parent : gmap string PyVal -> option string -> bool;
  escape : gmap string PyVal -> string -> string;
  open : gmap string PyVal -> option string -> option string -> string;
  close : gmap string PyVal -> option string -> option string -> string
}.

(** ** Helpers of [class BBCodeParser] *)

(** [is_valid_key(array, key)]: the key is set and its value is not
    [None]; the maps of the embedding hold no [None]. *)
Definition is_valid_key {V} (array : gmap string V) (key : string) : bool :=
  bool_decide (is_Some (array !! key)).

(** [codes[name]] *)
Definition getitem {V} (array : gmap string V) (key : string) : flow V :=
  match array !! key with
  | Some v => Next v
  | None => Raise KeyError
  end.

(** The [_find_*] helpers scan [range(position - 1, -1, -1)] and read
    [queue[i]] at each step; [None] stands for the [-1] they return. *)
Fixpoint _find_start_code_with_status (queue : list Token) (st : Status)
    (position : nat) : flow (option nat) :=
  match position with
  | O => Next None
  | S i =>
      match queue !! i with
      | Some t =>
          if bool_decide (ttype t = CODE_START) && bool_decide (status t = st)
          then Next (Some i)
          else _find_start_code_with_status queue st i
      | None => Raise IndexError
      end
  end.

Fixpoint _find_start_code_of_type (queue : list Token) (c : string)
    (position : nat) : flow (option nat) :=
  match position with
  | O => Next None
  | S i =>
      match queue !! i with
      | Some t =>
          if bool_decide (ttype t = CODE_START)
             && bool_decide (status t = UNDETERMINED)
             && bool_decide (content t = c)
          then Next (Some i)
          else _find_start_code_of_type queue c i
      | None => Raise IndexError
      end
  end.

(** [queue[i].matches > position] orders [None] against an [int] when the
    start code at [i] is valid and was never matched. *)
Fixpoint _find_parent_start_code_from (queue : list Token) (position : nat)
    (n : nat) : flow (option nat) :=
  match n with
  | O => Next None
  | S i =>
      match queue !! i with
      | Some t =>
          if bool_decide (ttype t = CODE_START) && bool_decide (status t = VALID)
          then match matches t with
               | None => Raise TypeError
               | Some m => if (position <? m)%nat then Next (Some i)
                           else _find_parent_start_code_from queue position i
               end
          else _find_parent_start_code_from queue position i
      | None => Raise IndexError
      end
  end.

Definition _find_parent_start_code (queue : list Token) (position : nat)
  : flow (option nat) :=
  _find_parent_start_code_from queue position position.

(** Python indexing and slice deletion on lists, negative indices included. *)
Definition py_index {A} (l : list A) (i : Z) : option A :=
  if (0 <=? i)%Z then l !! Z.to_nat i
  else if (- Z.of_nat (length l) <=? i)%Z then l !! Z.to_nat (Z.of_nat (length l) + i)
  else None.

Definition py_clamp (len i : Z) : Z :=
  if (i <? 0)%Z then Z.max 0 (len + i) else Z.min i len.

(** [del l[a:b]] *)
Definition py_del_slice {A} (l : list A) (a b : Z) : list A :=
  let len := Z.of_nat (length l) in
  let s := py_clamp len a in
  let e := py_clamp len b in
  if (s <? e)%Z then take (Z.to_nat s) l ++ drop (Z.to_nat e) l else l.

(** The [while i < count] loop of [_array_remove]: nothing in its body
    advances [i] when [stack[i]] differs from [match]. *)
Fixpoint _array_remove_loop {A} `{EqDecision A} (fuel : nat) (stack : list A)
    (match_ : A) (first : bool) (i count : Z) : flow (list A) :=
  match fuel with
  | O => Spin
  | S fuel' =>
      if (i <? count)%Z then
        match py_index stack i with
        | None => Raise IndexError
        | Some x =>
            if decide (x = match_) then
              let stack' := py_del_slice stack i (i + 1) in
              if first then Next stack'
              else _array_remove_loop fuel' stack' match_ first (i - 1) (count - 1)
            else _array_remove_loop fuel' stack match_ first i count
        end
      else Next stack
  end.

Definition _array_remove {A} `{EqDecision A} (fuel : nat) (stack : list A)
    (match_ : A) (first : bool) : flow (list A) :=
  _array_remove_loop fuel stack match_ first 0 (Z.of_nat (length stack)).

(** ** [BBCodeParser._replace]: building the queue (lines 384-452) *)

Section Replace.

Variable allowed_codes : list string.
Variable settings : gmap string PyVal.
Variable codes : gmap string BBCode.
Variables all_or_nothing handle_overlapping_codes escape_content_output : bool.
Variables code_start_symbol code_end_symbol : string.

(** [queue[len(queue) - 1].status = st] *)
Definition set_last_status (st : Status) (queue : list Token) : list Token :=
  alter (with_status st) (length queue - 1) queue.

(** The auto-close test shared by lines 418-422 and 430-434:
    remove the partner from the stack, then queue its closing code. *)
Definition auto_close (name : string) (auto_close_code : option string)
    (queue : list Token) (stack : list string) : flow (list Token * list string) :=
  match auto_close_code with
  | Some a =>
      if is_valid_key codes name && PyStr.truthy auto_close_code
         && is_valid_key codes a && bool_decide (a ∈ stack)
      then
        stack' ← _array_remove (S (length stack)) stack a true;
        Next (queue ++ [mkToken CODE_END ("/" +:+ a) None], stack')
      else Next (queue, stack)
  | None => Next (queue, stack)
  end.

(** Lines 403-444: a non-empty code is split at its last [=] and queued
    as an end code or a start code. *)
Definition emit_code (code : option string) (queue : list Token)
    (stack : list string) : flow (list Token * list string) :=
  match code with
  | None => Raise AttributeError   (* [None.rfind] *)
  | Some c =>
      let '(code_display_name, code_argument) :=
        match PyStr.rfind c "=" with
        | Some equals => (PyStr.slice c 0 equals, Some (PyStr.slice_from c (equals + 1)))
        | None => (c, None)
        end in
      '(queue, stack, name) ←
        (if String.eqb (PyStr.slice c 0 1) "/" then
           let code_no_slash := PyStr.slice_from code_display_name 1 in
           h ← getitem codes code_no_slash;
           '(queue, stack) ← auto_close code_no_slash
                               (get_auto_close_code_on_close h) queue stack;
           Next (queue ++ [mkToken CODE_END code_display_name None], stack,
                 code_no_slash)
         else
           h ← getitem codes code_display_name;
           '(queue, stack) ← auto_close code_display_name
                               (get_auto_close_code_on_open h) queue stack;
           Next (queue ++ [mkToken CODE_START code_display_name code_argument],
                 stack ++ [code_display_name], code_display_name));
      if negb (is_valid_key codes name) then
        Next (set_last_status NOIMPLFOUND queue, stack)
      else if negb (bool_decide (name ∈ allowed_codes)) then
        Next (set_last_status NOTALLOWED queue, stack)
      else Next (queue, stack)
  end.

(** The [while tokenizer.has_next_token(code_start_symbol)] loop.
    When [before] is [None] the token queued on line 396 is never read:
    line 399 raises next. *)
Fixpoint build_queue (fuel : nat) (tokenizer : MultiTokenizer)
    (queue : list Token) (stack : list string)
  : flow (list Token * list string * MultiTokenizer) :=
  match fuel with
  | O => Spin
  | S fuel' =>
      if Tokenizer.has_next_token tokenizer code_start_symbol then
        let '(before, tokenizer) := Tokenizer.next_token tokenizer code_start_symbol in
        let '(code, tokenizer) := Tokenizer.next_token tokenizer code_end_symbol in
        if negb (bool_decide (code = Some "")) then
          match before with
          | None => Raise TypeError
          | Some b =>
              let queue :=
                if negb (String.eqb b "") then queue ++ [mkToken CONTENT b None]
                else queue in
              exhausted ← Tokenizer.is_exhausted tokenizer;
              if (exhausted : bool) then Raise TypeError   (* [len(input)]: the builtin *)
              else
                '(queue, stack) ← emit_code code queue stack;
                build_queue fuel' tokenizer queue stack
          end
        else
          match before with
          | None => Raise TypeError   (* [None + '[]'] *)
          | Some b =>
              build_queue fuel' tokenizer
                (queue ++ [mkToken CONTENT (b +:+ "[]") None]) stack
          end
      else Next (queue, stack, tokenizer)
  end.

(** ** [_replace]: marking the start/end pairs (lines 454-496) *)

(** [for i in range(0, count): body] with the loop state threaded. *)
Fixpoint for_range {S : Type} (body : S -> nat -> flow S) (indices : list nat)
    (s : S) : flow S :=
  match indices with
  | [] => Next s
  | i :: rest => s' ← body s i; for_range body rest s'
  end.

Definition mark_pair (start i : nat) (queue : list Token) : list Token :=
  alter (fun t => with_matches (Some i) (with_status VALID t)) start
    (alter (fun t => with_matches (Some start) (with_status VALID t)) i queue).

(** Lines 457-492: the status the token at [i] gets, and with it the
    status of the start code it closes. *)
Definition mark_token (queue : list Token) (i : nat) : flow (list Token) :=
  match queue !! i with
  | None => Raise IndexError
  | Some token =>
      if bool_decide (status token <> NOIMPLFOUND)
         && bool_decide (status token <> NOTALLOWED) then
        match ttype token with
        | CODE_START =>
            h ← getitem codes (content token);
            if negb (needs_end h) then Next (alter (with_status VALID) i queue)
            else Next queue
        | CODE_END =>
            let c := PyStr.slice_from (content token) 1 in
            h ← getitem codes c;
            if negb (needs_end h) then
              Next (alter (fun t => with_status VALID (with_ttype CONTENT t)) i queue)
            else
              start ←
                (if handle_overlapping_codes
                 then _find_start_code_of_type queue c i
                 else _find_start_code_with_status queue UNDETERMINED i);
              match start with
              | None => Next (alter (with_status INVALID) i queue)
              | Some s =>
                  match queue !! s with
                  | None => Raise IndexError
                  | Some t =>
                      if bool_decide (content t <> c)
                      then Next (alter (with_status INVALID) i queue)
                      else Next (mark_pair s i queue)
                  end
              end
        | _ => Next queue
        end
      else Next queue
  end.

(** One round of the first loop: lines 457-496 at index [i]. *)
Definition pair_token (finput : string) (queue : list Token) (i : nat)
  : flow (list Token) :=
  queue' ← mark_token queue i;
  match queue' !! i with
  | Some token =>
      if all_or_nothing && bool_decide (status token = INVALID)
      then Return finput
      else Next queue'
  | None => Raise IndexError
  end.

Definition pairing_pass (finput : string) (queue : list Token) : flow (list Token) :=
  for_range (pair_token finput) (seq 0 (length queue)) queue.

(** ** [_replace]: the final loop (lines 498-593) *)

(** Lines 519-550: the rules checked on a start code before it is printed.
    [if token.status:] on line 533 tests the string ['INVALID'], which is
    true, so [queue[token.matches]] is evaluated whatever [matches] is.
    [if token.matches:] on line 545 does skip [None] and [0]; the partner
    and the token are marked, and then [allOrNothing] on line 549 is not a
    name of the function. *)
Definition validate_start (finput : string) (queue : list Token) (i : nat)
  : flow (list Token) :=
  match queue !! i with
  | None => Raise IndexError
  | Some token =>
      '(queue, parent) ←
        (if bool_decide (status token <> NOIMPLFOUND)
            && bool_decide (status token <> NOTALLOWED) then
           parent ← _find_parent_start_code queue i;
           h ← getitem codes (content token);
           bad ←
             (if (bool_decide (status token = UNDETERMINED) && needs_end h)
                 || (can_have_argument h
                     && negb (is_valid_argument h settings (argument token)))
                 || (negb (can_have_argument h) && PyStr.truthy (argument token))
                 || (must_have_argument h && negb (PyStr.truthy (argument token)))
              then Next true
              else match parent with
                   | None => Next false
                   | Some p =>
                       match queue !! p with
                       | None => Raise IndexError
                       | Some pt =>
                           ph ← getitem codes (content pt);
                           Next (negb (can_have_code_content ph))
                       end
                   end);
           queue ←
             (if (bad : bool) then
                match matches token with
                | None => Raise TypeError   (* [queue[None]] *)
                | Some m =>
                    if (m <? length queue)%nat then
                      let queue := alter (with_status INVALID) m
                                     (alter (with_status INVALID) i queue) in
                      if all_or_nothing then Return finput else Next queue
                    else Raise IndexError
                end
              else Next queue);
           match parent with
           | None => Next (queue, Some "GLOBAL")
           | Some p =>
               match queue !! p with
               | None => Raise IndexError
               | Some pt => Next (queue, Some (content pt))
               end
           end
         else Next (queue, None));
      match queue !! i with
      | None => Raise IndexError
      | Some token =>
          if bool_decide (status token = VALID) then
            h ← getitem codes (content token);
            if negb (is_valid_parent h settings parent) then
              queue ←
                match matches token with
                | Some m =>
                    if (0 <? m)%nat then   (* [if token.matches:] *)
                      if (m <? length queue)%nat
                      then Next (alter (with_status INVALID) m queue)
                      else Raise IndexError
                    else Next queue
                | None => Next queue
                end;
              let queue := alter (with_status INVALID) i queue in
              Raise NameError            (* [if allOrNothing:] *)
            else Next queue
          else Next queue
      end
  end.

(** One round of the final loop at index [i]; the state is the queue, the
    stack of open start codes (as queue indices) and the output.  The
    literal form of a code that is not valid is written with the PHP
    operator [.], an attribute access on a [str] (lines 559, 561, 593);
    [count(stack)] on line 571 calls the [int] bound on line 455, so the
    statements after it (lines 573-579, 587-591) are never run. *)
Definition render_token (finput : string)
    (st : list Token * list nat * string) (i : nat)
  : flow (list Token * list nat * string) :=
  let '(queue, stack, output) := st in
  match queue !! i with
  | None => Raise IndexError
  | Some token =>
      match ttype token with
      | CONTENT =>
          parent ← _find_start_code_with_status queue VALID i;
          if negb escape_content_output then
            Next (queue, stack, output +:+ content token)
          else
            let global :=
              g ← getitem codes "GLOBAL";
              Next (queue, stack, output +:+ escape g settings (content token)) in
            match parent with
            | None => global
            | Some p =>
                match queue !! p with
                | None => Raise IndexError
                | Some pt =>
                    if negb (is_valid_key codes (content pt)) then global
                    else
                      h ← getitem codes (content pt);
                      Next (queue, stack,
                            output +:+ escape h settings (content token))
                end
            end
      | CODE_START =>
          queue ← validate_start finput queue i;
          match queue !! i with
          | None => Raise IndexError
          | Some token =>
              if bool_decide (status token = VALID) then
                h ← getitem codes (content token);
                Next (queue,
                      if handle_overlapping_codes then stack ++ [i] else stack,
                      output +:+ open h settings (argument token) None)
              else match argument token with
                   | Some _ => Raise AttributeError
                   | None => Raise AttributeError
                   end
          end
      | CODE_END =>
          if bool_decide (status token = VALID) then
            let c := PyStr.slice_from (content token) 1 in
            if handle_overlapping_codes then Raise TypeError
            else
              h ← getitem codes c;
              Next (queue, stack, output +:+ close h settings (argument token) None)
          else Raise AttributeError
      | NONE => Next st
      end
  end.

Definition render_pass (finput : string) (queue : list Token)
  : flow (list Token * list nat * string) :=
  for_range (render_token finput) (seq 0 (length queue)) (queue, [], "").

(** ** [_replace] *)

(** Lines 454-597: the two loops over a queue that has been built. *)
Definition replace_queue (finput : string) (queue : list Token) : flow string :=
  queue ← pairing_pass finput queue;
  '(_, _, output) ← render_pass finput queue;
  Next output.

Definition _replace (finput : string) : result :=
  run (
    if bool_decide (PyStr.rfind finput code_start_symbol <> None)
       && bool_decide (PyStr.rfind finput code_end_symbol <> None) then
      '(queue, stack, tokenizer) ←
        build_queue (S (String.length finput)) (Tokenizer.init finput) [] [];
      last_bits ← Tokenizer.position_to_end_token tokenizer;
      let queue :=
        if negb (String.eqb last_bits "")
        then queue ++ [mkToken CONTENT last_bits None] else queue in
      replace_queue finput queue
    else if negb escape_content_output then Next finput
    else
      g ← getitem codes "GLOBAL";
      Next (escape g settings finput)).

End Replace.

(** ** Handlers *)

(** [cgi.escape(s, True)] of the Python library (3.0 to 3.7): [&], [<],
    [>] and the double quote become entities. *)
Fixpoint cgi_escape (s : string) : string :=
  match s with
  | EmptyString => ""
  | String c s' =>
      (if Ascii.eqb c "&"%char then "&amp;"
       else if Ascii.eqb c "<"%char then "&lt;"
       else if Ascii.eqb c ">"%char then "&gt;"
       else if Ascii.eqb c "034"%char then "&quot;"
       else String c "") +:+ cgi_escape s'
  end.

Definition DefaultGlobalBBCode : BBCode := {|
  get_code_name := "GLOBAL"; get_display_name := "GLOBAL";
  needs_end := false; can_have_code_content := true;
  can_have_argument := false; must_have_argument := false;
  get_auto_close_code_on_open := None; get_auto_close_code_on_close := None;
  is_valid_argument := fun _ _ => false;
  is_valid_parent := fun _ _ => false;
  escape := fun _ c => c;
  open := fun _ _ _ => "";
  close := fun _ _ _ => "" |}.

Definition HTMLGlobalBBCode : BBCode := {|
  get_code_name := "GLOBAL"; get_display_name := "GLOBAL";
  needs_end := false; can_have_code_content := true;
  can_have_argument := false; must_have_argument := false;
  get_auto_close_code_on_open := None; get_auto_close_code_on_close := None;
  is_valid_argument := fun _ _ => false;
  is_valid_parent := fun _ _ => false;
  escape := fun _ c => cgi_escape c;
  open := fun _ _ _ => "";
  close := fun _ _ _ => "" |}.

Definition HTMLBoldBBCode : BBCode := {|
  get_code_name := "Bold"; get_display_name := "b";
  needs_end := true; can_have_code_content := true;
  can_have_argument := false; must_have_argument := false;
  get_auto_close_code_on_open := None; get_auto_close_code_on_close := None;
  is_valid_argument := fun _ _ => false;
  is_valid_parent := fun _ _ => true;
  escape := fun _ c => cgi_escape c;
  open := fun _ _ _ => "<b>";
  close := fun _ _ _ => "</b>" |}.

Definition HTMLItalicBBCode : BBCode := {|
  get_code_name := "Italic"; get_display_name := "i";
  needs_end := true; can_have_code_content := true;
  can_have_argument := false; must_have_argument := false;
  get_auto_close_code_on_open := None; get_auto_close_code_on_close := None;
  is_valid_argument := fun _ _ => false;
  is_valid_parent := fun _ _ => true;
  escape := fun _ c => cgi_escape c;
  open := fun _ _ _ => "<i>";
  close := fun _ _ _ => "</i>" |}.

Definition HTMLListItemBBCode : BBCode := {|
  get_code_name := "List Item"; get_display_name := "li";
  needs_end := true; can_have_code_content := true;
  can_have_argument := false; must_have_argument := false;
  get_auto_close_code_on_open := None; get_auto_close_code_on_close := None;
  is_valid_argument := fun _ _ => false;
  is_valid_parent := fun _ parent =>
    bool_decide (parent = Some "ul") || bool_decide (parent = Some "ol");
  escape := fun _ c => cgi_escape c;
  open := fun _ _ _ => "<li>";
  close := fun _ _ _ => "</li>" |}.

Definition HTMLStarBBCode : BBCode := {|
  get_code_name := "Star"; get_display_name := "*";
  needs_end := true; can_have_code_content := true;
  can_have_argument := false; must_have_argument := false;
  get_auto_close_code_on_open := Some "*"; get_auto_close_code_on_close := None;
  is_valid_argument := fun _ _ => false;
  is_valid_parent := fun _ _ => true;
  escape := fun _ c => cgi_escape c;
  open := fun _ _ _ => "<li>";
  close := fun _ _ _ => "</li>" |}.

(** ** [BBCodeParser.__init__] and [BBCodeParser.format] *)

Record BBCodeParser := {
  bb_codes : gmap string BBCode;
  bb_code_count : nat;
  allowed_codes : list string;
  settings : gmap string PyVal;
  all_or_nothing : bool;
  handle_overlapping_codes : bool;
  escape_content_output : bool;
  code_start_symbol : string;
  code_end_symbol : string
}.

(** The [options] dictionary of the constructor; a key that is absent or
    [None] is [None]. *)
Record Options := {
  o_all_or_nothing : option bool;
  o_handle_overlapping_codes : option bool;
  o_escape_content_output : option bool;
  o_code_start_symbol : option string;
  o_code_end_symbol : option string;
  o_settings : option (list (string * PyVal));
  o_codes : option (gmap string BBCode);
  o_replaceDefaults : option bool;
  o_allowed_codes : option (list string)
}.

Definition no_options : Options := {|
  o_all_or_nothing := None; o_handle_overlapping_codes := None;
  o_escape_content_output := None; o_code_start_symbol := None;
  o_code_end_symbol := None; o_settings := None; o_codes := None;
  o_replaceDefaults := None; o_allowed_codes := None |}.

(** The settings assigned on lines 270-290. *)
Definition default_settings : gmap string PyVal :=
  list_to_map [
    ("XHTML", PyBool false);
    ("FontSizeUnit", PyStr "px");
    ("FontSizeMax", PyInt 48);
    ("ColorAllowAdvFormats", PyBool false);
    ("QuoteTitleBackground", PyStr "#e4eaf2");
    ("QuoteBorder", PyStr "1px solid gray");
    ("QuoteBackground", PyStr "white");
    ("QuoteCSSClassName", PyStr "quotebox-{by}");
    ("CodeTitleBackground", PyStr "#ffc29c");
    ("CodeBorder", PyStr "1px solid gray");
    ("CodeBackground", PyStr "white");
    ("CodeCSSClassName", PyStr "codebox-{lang}");
    ("LinkUnderline", PyBool true);
    ("LinkColor", PyStr "blue")
  ].

(** Lines 320-322: [self.settings[key] = value + ''] accepts strings only. *)
Fixpoint copy_settings (items : list (string * PyVal)) (acc : gmap string PyVal)
  : flow (gmap string PyVal) :=
  match items with
  | [] => Next acc
  | (key, PyStr s) :: rest => copy_settings rest (<[key := PyStr s]> acc)
  | _ :: _ => Raise TypeError
  end.

(** [__init__(self, options=None)].  [default_codes] is the dictionary
    that [_setup_default_codes] assigns to [self.bb_codes]. *)
Definition __init__ (default_codes : gmap string BBCode) (options : Options)
  : flow BBCodeParser :=
  settings ← match o_settings options with
             | Some items => copy_settings items default_settings
             | None => Next default_settings
             end;
  let codes :=
    match o_codes options with
    | Some cs => if default false (o_replaceDefaults options) then cs
                 else cs ∪ default_codes
    | None => default_codes
    end in
  let count := size codes in
  (* line 337: the test holds exactly when GLOBAL is set, otherwise its
     second operand reads the missing key *)
  codes ← (if is_valid_key codes "GLOBAL"
           then Next (<["GLOBAL" := DefaultGlobalBBCode]> codes)
           else _ ← getitem codes "GLOBAL"; Next codes);
  Next {|
    bb_codes := codes;
    bb_code_count := count;
    allowed_codes := match o_allowed_codes options with
                     | Some l => l
                     | None => (map_to_list codes).*1
                     end;
    settings := settings;
    all_or_nothing := default true (o_all_or_nothing options);
    handle_overlapping_codes := default false (o_handle_overlapping_codes options);
    escape_content_output := default true (o_escape_content_output options);
    code_start_symbol := default "[" (o_code_start_symbol options);
    code_end_symbol := default "]" (o_code_end_symbol options) |}.

(** The per-call overrides of [format]. *)
Record FormatOptions := {
  f_all_or_nothing : option bool;
  f_handle_overlapping_codes : option bool;
  f_escape_content_output : option bool
}.

Definition no_format_options : FormatOptions :=
  {| f_all_or_nothing := None; f_handle_overlapping_codes := None;
     f_escape_content_output := None |}.

(** [format(self, finput, options=None)] *)
Definition format (self : BBCodeParser) (finput : string) (options : FormatOptions)
  : result :=
  let aon := default (all_or_nothing self) (f_all_or_nothing options) in
  let overlap := default (handle_overlapping_codes self)
                   (f_handle_overlapping_codes options) in
  let esc := default (escape_content_output self)
               (f_escape_content_output options) in
  if (0 <? bb_code_count self)%nat && (0 <? length (allowed_codes self))%nat then
    _replace (allowed_codes self) (settings self) (bb_codes self) aon overlap esc
      (code_start_symbol self) (code_end_symbol self) finput
  else Ok finput.

(** ** Vocabulary of the statements *)

(** [sub] occurs somewhere in [s]. *)
Definition occurs (sub s : string) : Prop :=
  exists pre post, s = pre +:+ sub +:+ post.

(** [r] is the nearest index before [i] whose token satisfies [P], or
    [None] when no earlier token does. *)
Definition nearest_before (P : Token -> Prop) (queue : list Token) (i : nat)
    (r : option nat) : Prop :=
  match r with
  | Some s =>
      (s < i)%nat /\ (exists t, queue !! s = Some t /\ P t)
      /\ forall j t, (s < j < i)%nat -> queue !! j = Some t -> ~ P t
  | None => forall j t, (j < i)%nat -> queue !! j = Some t -> ~ P t
  end.

(** A queue as the first part of [_replace] leaves it: no token has a
    match yet. *)
Definition unmatched_queue (queue : list Token) : Prop :=
  forall i t, queue !! i = Some t -> matches t = None.

(** Every token that records a match is recorded back by its partner, and
    the two are valid together or not valid together. *)
Definition pair_consistent (queue : list Token) : Prop :=
  forall i j t, queue !! i = Some t -> matches t = Some j ->
    exists t', queue !! j = Some t' /\ matches t' = Some i /\
      ((status t = VALID /\ status t' = VALID)
       \/ (status t <> VALID /\ status t' <> VALID)).

(** What the pairing loop maintains before it looks at index [n]:
    matched tokens are matched back and valid, and neither an undetermined
    token nor a token from [n] on has a match. *)
Definition pairing_inv (n : nat) (queue : list Token) : Prop :=
  (forall i j t, queue !! i = Some t -> matches t = Some j ->
     exists t', queue !! j = Some t' /\ matches t' = Some i
                /\ status t = VALID /\ status t' = VALID)
  /\ (forall i t, queue !! i = Some t -> status t = UNDETERMINED ->
        matches t = None)
  /\ (forall i t, queue !! i = Some t -> (n <= i)%nat -> matches t = None).

(** ** Example configurations *)

(** A registry passed as [codes] with [replaceDefaults]. *)
Definition example_codes : gmap string BBCode :=
  list_to_map [("GLOBAL", HTMLGlobalBBCode); ("b", HTMLBoldBBCode);
               ("i", HTMLItalicBBCode); ("li", HTMLListItemBBCode);
               ("*", HTMLStarBBCode)].

Definition example_options : Options := {|
  o_all_or_nothing := None; o_handle_overlapping_codes := None;
  o_escape_content_output := None; o_code_start_symbol := None;
  o_code_end_symbol := None; o_settings := None;
  o_codes := Some example_codes; o_replaceDefaults := Some true;
  o_allowed_codes := None |}.

(** The parser [BBCodeParser(example_options)]. *)
Definition example_parser : BBCodeParser := {|
  bb_codes := <["GLOBAL" := DefaultGlobalBBCode]> example_codes;
  bb_code_count := 5;
  allowed_codes := (map_to_list (<["GLOBAL" := DefaultGlobalBBCode]> example_codes)).*1;
  settings := default_settings;
  all_or_nothing := true;
  handle_overlapping_codes := false;
  escape_content_output := true;
  code_start_symbol := "[";
  code_end_symbol := "]" |}.

(** The same registry with [allowed_codes: []]. *)
Definition silent_options : Options := {|
  o_all_or_nothing := None; o_handle_overlapping_codes := None;
  o_escape_content_output := None; o_code_start_symbol := None;
  o_code_end_symbol := None; o_settings := None;
  o_codes := Some example_codes; o_replaceDefaults := Some true;
  o_allowed_codes := Some [] |}.

Definition silent_parser : BBCodeParser := {|
  bb_codes := <["GLOBAL" := DefaultGlobalBBCode]> example_codes;
  bb_code_count := 5;
  allowed_codes := [];
  settings := default_settings;
  all_or_nothing := true;
  handle_overlapping_codes := false;
  escape_content_output := true;
  code_start_symbol := "[";
  code_end_symbol := "]" |}.

(** Queues the first part of [_replace] is written to build. *)
Definition queue_bold : list Token :=      (* [b]hi[/b] *)
  [mkToken CODE_START "b" None; mkToken CONTENT "hi" None;
   mkToken CODE_END "/b" None].

Definition queue_mismatch : list Token :=  (* [b]hi[/i] *)
  [mkToken CODE_START "b" None; mkToken CONTENT "hi" None;
   mkToken CODE_END "/i" None].

Definition queue_bold_argument : list Token :=  (* [b=x]hi[/b] *)
  [mkToken CODE_START "b" (Some "x"); mkToken CONTENT "hi" None;
   mkToken CODE_END "/b" None].

Definition queue_bold_argument_paired : list Token :=
  [with_matches (Some 2%nat) (with_status VALID (mkToken CODE_START "b" (Some "x")));
   mkToken CONTENT "hi" None;
   with_matches (Some 0%nat) (with_status VALID (mkToken CODE_END "/b" None))].

Definition queue_bold_argument_invalid : list Token :=
  [with_matches (Some 2%nat) (with_status INVALID (mkToken CODE_START "b" (Some "x")));
   mkToken CONTENT "hi" None;
   with_matches (Some 0%nat) (with_status INVALID (mkToken CODE_END "/b" None))].

Definition queue_unclosed : list Token :=  (* [b]hi *)
  [mkToken CODE_START "b" None; mkToken CONTENT "hi" None].

Definition queue_list_item : list Token := (* [li]x[/li] *)
  [mkToken CODE_START "li" None; mkToken CONTENT "x" None;
   mkToken CODE_END "/li" None].

Definition queue_after_bold : list Token := (* [b]x[/b]< *)
  [mkToken CODE_START "b" None; mkToken CONTENT "x" None;
   mkToken CODE_END "/b" None; mkToken CONTENT "<" None].

Definition queue_after_bold_paired : list Token :=
  [with_matches (Some 2%nat) (with_status VALID (mkToken CODE_START "b" None));
   mkToken CONTENT "x" None;
   with_matches (Some 0%nat) (with_status VALID (mkToken CODE_END "/b" None));
   mkToken CONTENT "<" None].

Definition queue_bogus : list Token :=     (* [bogus]x[/bogus] *)
  [with_status NOIMPLFOUND (mkToken CODE_START "bogus" None);
   mkToken CONTENT "x" None;
   with_status NOIMPLFOUND (mkToken CODE_END "/bogus" None)].

(** The registry of [example_parser]. *)
Definition parser_codes : gmap string BBCode :=
  <["GLOBAL" := DefaultGlobalBBCode]> example_codes.

Definition keep_going : FormatOptions :=
  {| f_all_or_nothing := Some false; f_handle_overlapping_codes := None;
     f_escape_content_output := None |}.

(** ** Further handlers *)

(** The alignment handlers print their [div] only when [closing_code] is
    set. *)
Definition HTMLLeftBBCode : BBCode := {|
  get_code_name := "Left"; get_display_name := "left";
  needs_end := true; can_have_code_content := true;
  can_have_argument := false; must_have_argument := false;
  get_auto_close_code_on_open := None; get_auto_close_code_on_close := None;
  is_valid_argument := fun _ _ => false;
  is_valid_parent := fun _ _ => true;
  escape := fun _ c => cgi_escape c;
  open := fun _ _ closing_code =>
    if PyStr.truthy closing_code
    then "<div style=" +:+ String "034" "display: block text-align: left"
         +:+ String "034" ">"
    else "";
  close := fun _ _ closing_code =>
    if PyStr.truthy closing_code then "</div>" else "" |}.

Definition HTMLCenterBBCode : BBCode := {|
  get_code_name := "Center"; get_display_name := "center";
  needs_end := true; can_have_code_content := true;
  can_have_argument := false; must_have_argument := false;
  get_auto_close_code_on_open := None; get_auto_close_code_on_close := None;
  is_valid_argument := fun _ _ => false;
  is_valid_parent := fun _ _ => true;
  escape := fun _ c => cgi_escape c;
  open := fun _ _ closing_code =>
    if PyStr.truthy closing_code
    then "<div style=" +:+ String "034" "display: block text-align: center"
         +:+ String "034" ">"
    else "";
  close := fun _ _ closing_code =>
    if PyStr.truthy closing_code then "</div>" else "" |}.

Definition HTMLRightBBCode : BBCode := {|
  get_code_name := "Right"; get_display_name := "right";
  needs_end := true; can_have_code_content := true;
  can_have_argument := false; must_have_argument := false;
  get_auto_close_code_on_open := None; get_auto_close_code_on_close := None;
  is_valid_argument := fun _ _ => false;
  is_valid_parent := fun _ _ => true;
  escape := fun _ c => cgi_escape c;
  open := fun _ _ closing_code =>
    if PyStr.truthy closing_code
    then "<div style=" +:+ String "034" "display: block text-align: right"
         +:+ String "034" ">"
    else "";
  close := fun _ _ closing_code =>
    if PyStr.truthy closing_code then "</div>" else "" |}.

(** ** Further vocabulary *)

(** The registry [__init__] works on before line 337: the codes of the
    options alone with [replaceDefaults], laid over the defaults without. *)
Definition effective_codes (default_codes : gmap string BBCode) (o : Options)
  : gmap string BBCode :=
  match o_codes o with
  | Some cs => if default false (o_replaceDefaults o) then cs
               else cs ∪ default_codes
  | None => default_codes
  end.

(** A code the first part of [_replace] has set aside. *)
Definition rejected (t : Token) : Prop :=
  status t = NOIMPLFOUND \/ status t = NOTALLOWED.

(** The name an end code closes: its content without the slash. *)
Definition closed_name (t : Token) : string := PyStr.slice_from (content t) 1.

(** Every code the loops look up has a handler. *)
Definition registered_queue (codes : gmap string BBCode) (queue : list Token) : Prop :=
  forall i t, queue !! i = Some t -> ~ rejected t ->
    (ttype t = CODE_START -> is_Some (codes !! content t))
    /\ (ttype t = CODE_END -> is_Some (codes !! closed_name t)).

(** [queue'] holds the tokens of [queue] with the same text: only types,
    statuses and matches may differ, and neither content tokens nor
    rejected codes differ at all. *)
Definition same_text (queue queue' : list Token) : Prop :=
  length queue' = length queue
  /\ forall i t t', queue !! i = Some t -> queue' !! i = Some t' ->
       content t' = content t /\ argument t' = argument t
       /\ (rejected t -> t' = t) /\ (ttype t = CONTENT -> t' = t).

(** A match joins an earlier start code and a later end code of the same
    name. *)
Definition pairs_shaped (queue : list Token) : Prop :=
  forall i t m, queue !! i = Some t -> matches t = Some m ->
    exists t', queue !! m = Some t' /\
      ((ttype t = CODE_START /\ ttype t' = CODE_END /\ (i < m)%nat
        /\ content t = closed_name t')
       \/ (ttype t = CODE_END /\ ttype t' = CODE_START /\ (m < i)%nat
           /\ content t' = closed_name t)).

(** Inside a matched pair no start code is left undetermined, and a start
    code matched there is closed there. *)
Definition nesting_inv (queue : list Token) : Prop :=
  forall s i ts, queue !! s = Some ts -> ttype ts = CODE_START ->
    matches ts = Some i ->
    forall k tk, (s < k < i)%nat -> queue !! k = Some tk -> ttype tk = CODE_START ->
      status tk <> UNDETERMINED /\ forall m, matches tk = Some m -> (m < i)%nat.

(** Matched pairs do not cross: a start code inside a pair is closed
    inside it. *)
Definition well_nested (queue : list Token) : Prop :=
  forall a b c d ta tc,
    queue !! a = Some ta -> ttype ta = CODE_START -> matches ta = Some b ->
    queue !! c = Some tc -> ttype tc = CODE_START -> matches tc = Some d ->
    (a < c < b)%nat -> (d < b)%nat.

(** What one round of the pairing loop does to the queue. *)
Inductive mark_effect (overlap : bool) (queue : list Token) (i : nat)
    (token : Token) : list Token -> Prop :=
| mark_same : mark_effect overlap queue i token queue
| mark_alter (f : Token -> Token) :
    ~ rejected token ->
    ttype token = CODE_START \/ ttype token = CODE_END ->
    (forall t, content (f t) = content t /\ argument (f t) = argument t
               /\ matches (f t) = matches t) ->
    (forall t, status (f t) = VALID \/ status (f t) = INVALID) ->
    (forall t, ttype (f t) = ttype t \/ ttype (f t) = CONTENT) ->
    mark_effect overlap queue i token (alter f i queue)
| mark_match (s : nat) (t : Token) :
    ~ rejected token -> ttype token = CODE_END ->
    queue !! s = Some t -> content t = closed_name token ->
    nearest_before
      (fun t => ttype t = CODE_START /\ status t = UNDETERMINED
                /\ (overlap = true -> content t = closed_name token))
      queue i (Some s) ->
    mark_effect overlap queue i token (mark_pair s i queue).

(** The start codes [_find_parent_start_code] stops at. *)
Definition parent_candidate (position : nat) (t : Token) : Prop :=
  ttype t = CODE_START /\ status t = VALID
  /\ (matches t = None \/ exists m, matches t = Some m /\ (position < m)%nat).

(** The queue of [b][i][/b][/i]. *)
Definition queue_crossing : list Token :=
  [mkToken CODE_START "b" None; mkToken CODE_START "i" None;
   mkToken CODE_END "/b" None; mkToken CODE_END "/i" None].

Definition queue_crossing_paired : list Token :=
  [with_matches (Some 2%nat) (with_status VALID (mkToken CODE_START "b" None));
   with_matches (Some 3%nat) (with_status VALID (mkToken CODE_START "i" None));
   with_matches (Some 0%nat) (with_status VALID (mkToken CODE_END "/b" None));
   with_matches (Some 1%nat) (with_status VALID (mkToken CODE_END "/i" None))].

(** The queue of [[li]x[/li]] after the pairing loop, and a start code
    whose match lies past the end of its queue. *)
Definition queue_list_item_paired : list Token :=
  [with_matches (Some 2%nat) (with_status VALID (mkToken CODE_START "li" None));
   mkToken CONTENT "x" None;
   with_matches (Some 0%nat) (with_status VALID (mkToken CODE_END "/li" None))].

Definition queue_dangling_match : list Token :=
  [with_matches (Some 7%nat) (with_status VALID (mkToken CODE_START "li" None))].

(** The options [{'codes': {}, 'replaceDefaults': True}], alone and with
    [allowed_codes: []]. *)
Definition empty_registry_options : Options := {|
  o_all_or_nothing := None; o_handle_overlapping_codes := None;
  o_escape_content_output := None; o_code_start_symbol := None;
  o_code_end_symbol := None; o_settings := None;
  o_codes := Some ∅; o_replaceDefaults := Some true;
  o_allowed_codes := None |}.

Definition empty_registry_silent_options : Options := {|
  o_all_or_nothing := None; o_handle_overlapping_codes := None;
  o_escape_content_output := None; o_code_start_symbol := None;
  o_code_end_symbol := None; o_settings := None;
  o_codes := Some ∅; o_replaceDefaults := Some true;
  o_allowed_codes := Some [] |}.

(** The per-call option [{'escape_content_output': False}]. *)
Definition raw_output : FormatOptions :=
  {| f_all_or_nothing := None; f_handle_overlapping_codes := None;
     f_escape_content_output := Some false |}.

(** The queue of [[b][i][/i][/b]], before and after the pairing loop. *)
Definition queue_nested : list Token :=
  [mkToken CODE_START "b" None; mkToken CODE_START "i" None;
   mkToken CODE_END "/i" None; mkToken CODE_END "/b" None].

Definition queue_nested_paired : list Token :=
  [with_matches (Some 3%nat) (with_status VALID (mkToken CODE_START "b" None));
   with_matches (Some 2%nat) (with_status VALID (mkToken CODE_START "i" None));
   with_matches (Some 1%nat) (with_status VALID (mkToken CODE_END "/i" None));
   with_matches (Some 0%nat) (with_status VALID (mkToken CODE_END "/b" None))].

(** * Properties *)

(** ** Strings and the tokenizer *)

Example find_examples :
  PyStr.find "a[b]c" "]" 2 = Some 3 /\ PyStr.find "abc" "" 3 = Some 3
  /\ PyStr.find "abc" "" 4 = None /\ PyStr.find "abc" "[" 0 = None.
Proof. repeat split; reflexivity. Qed.

Example rfind_examples :
  PyStr.rfind "a=b=c" "=" = Some 3 /\ PyStr.rfind "abc" "=" = None.
Proof. split; reflexivity. Qed.

Example next_token_example :
  Tokenizer.next_token (Tokenizer.init "ab[cd]") "[" =
  (Some "ab", {| tk_input := "ab[cd]"; tk_length := 6; tk_position := 3 |}).
Proof. reflexivity. Qed.

Example init_example : __init__ ∅ example_options = Next example_parser.
Proof. vm_compute. reflexivity. Qed.

Lemma find_at_ge sub s k i : PyStr.find_at sub s k = Some i -> (k <= i)%nat.
Proof.
  revert k. induction s as [|c s IH]; intros k H; cbn [PyStr.find_at] in H.
  - destruct (String.prefix sub ""); simplify_eq; lia.
  - destruct (String.prefix sub (String c s)); [simplify_eq; lia|].
    apply IH in H. lia.
Qed.

Lemma find_ge s sub start i : PyStr.find s sub start = Some i -> (start <= i)%nat.
Proof.
  unfold PyStr.find. destruct (_ <? _)%nat; [discriminate|]. apply find_at_ge.
Qed.

Lemma next_token_None tok d tok' :
  Tokenizer.next_token tok d = (None, tok') ->
  tok' = tok /\ (tk_length tok <= tk_position tok)%nat.
Proof.
  unfold Tokenizer.next_token.
  destruct (tk_length tok <=? tk_position tok)%nat eqn:E; [|discriminate].
  intros H. simplify_eq. apply Nat.leb_le in E. done.
Qed.

Lemma next_token_Some tok d x tok' :
  Tokenizer.next_token tok d = (Some x, tok') ->
  (tk_position tok < tk_position tok')%nat /\ tk_length tok' = tk_length tok
  /\ (tk_position tok < tk_length tok)%nat.
Proof.
  unfold Tokenizer.next_token.
  destruct (tk_length tok <=? tk_position tok)%nat eqn:E; [discriminate|].
  apply Nat.leb_gt in E. intros H. simplify_eq. simpl. split; [|done].
  destruct (PyStr.find _ _ _) as [i|] eqn:F; [apply find_ge in F|]; lia.
Qed.

(** ** The queue is never built *)

Section Builder.

Variable allowed : list string.
Variable sett : gmap string PyVal.
Variable codes : gmap string BBCode.
Variables aon overlap esc : bool.
Variables start_symbol end_symbol : string.

(** With the fuel [_replace] gives it, the [while] loop either stops at
    the call of [is_exhausted] (or on a [None] token) with a [TypeError],
    or leaves normally; it raises nothing else and does not spin. *)
Lemma build_queue_outcome fuel tok queue stack :
  (tk_length tok - tk_position tok < fuel)%nat ->
  build_queue allowed codes start_symbol end_symbol fuel tok queue stack
    = Raise TypeError
  \/ exists r, build_queue allowed codes start_symbol end_symbol fuel tok queue stack
      = Next r.
Proof.
  revert tok queue stack.
  induction fuel as [|fuel IH]; intros tok queue stack Hfuel; [lia|].
  cbn [build_queue].
  destruct (Tokenizer.has_next_token tok start_symbol); [|right; eauto].
  destruct (Tokenizer.next_token tok start_symbol) as [before tok1] eqn:E1.
  destruct (Tokenizer.next_token tok1 end_symbol) as [code tok2] eqn:E2.
  destruct before as [b|].
  - apply next_token_Some in E1 as (Hpos1 & Hlen1 & Hlt1).
    destruct (negb (bool_decide (code = Some ""))) eqn:Ecode; [left; done|].
    apply negb_false_iff, bool_decide_eq_true in Ecode. subst code.
    apply next_token_Some in E2 as (Hpos2 & Hlen2 & Hlt2).
    apply IH. lia.
  - destruct (negb (bool_decide (code = Some ""))); left; done.
Qed.

(** Whenever both symbols occur in the input, [_replace] raises: inside
    the loop at line 399, or right after it at line 450. *)
Lemma _replace_raises finput :
  PyStr.rfind finput start_symbol <> None ->
  PyStr.rfind finput end_symbol <> None ->
  _replace allowed sett codes aon overlap esc start_symbol end_symbol finput
    = Exc TypeError.
Proof.
  intros Hs He. unfold _replace.
  rewrite !bool_decide_eq_true_2 by done. cbn [andb].
  destruct (build_queue_outcome (S (String.length finput))
              (Tokenizer.init finput) [] []) as [-> | [[[q st] tok] ->]];
    [simpl; lia | done | done].
Qed.

(** Without one of the symbols nothing is parsed. *)
Lemma _replace_plain finput :
  PyStr.rfind finput start_symbol = None \/ PyStr.rfind finput end_symbol = None ->
  _replace allowed sett codes aon overlap esc start_symbol end_symbol finput
    = if esc
      then match codes !! "GLOBAL" with
           | Some g => Ok (escape g sett finput)
           | None => Exc KeyError
           end
      else Ok finput.
Proof.
  intros H. unfold _replace.
  assert (bool_decide (PyStr.rfind finput start_symbol <> None)
          && bool_decide (PyStr.rfind finput end_symbol <> None) = false) as ->.
  { apply andb_false_iff.
    destruct H as [H|H]; [left|right]; apply bool_decide_eq_false; rewrite H; auto. }
  destruct esc; simpl; [|done].
  unfold getitem. destruct (codes !! "GLOBAL"); done.
Qed.

End Builder.

(** ** [rfind] and occurrence *)

Lemma prefix_true_iff sub s :
  String.prefix sub s = true <-> exists post, s = sub +:+ post.
Proof.
  revert s. induction sub as [|a sub IH]; intros s.
  - destruct s; simpl; split; eauto.
  - destruct s as [|b s]; simpl.
    + split; [discriminate | intros [post H]; discriminate].
    + destruct (Ascii.ascii_dec a b) as [->|Hne].
      * rewrite IH. split; intros [post H]; exists post;
          [by rewrite H | by injection H].
      * split; [discriminate | intros [post H]; by injection H].
Qed.

Lemma occurs_nil sub : occurs sub "" <-> sub = "".
Proof.
  split.
  - intros (pre & post & H). destruct pre; [|discriminate].
    destruct sub; [done | discriminate].
  - intros ->. exists "", "". done.
Qed.

Lemma occurs_cons sub c s :
  occurs sub (String c s) <-> String.prefix sub (String c s) = true \/ occurs sub s.
Proof.
  rewrite prefix_true_iff. split.
  - intros (pre & post & H). destruct pre as [|a pre]; simpl in H.
    + left. eauto.
    + right. exists pre, post. by injection H.
  - intros [[post H] | (pre & post & H)].
    + exists "", post. done.
    + exists (String c pre), post. simpl. by rewrite H.
Qed.

Lemma rfind_at_None sub s k last :
  PyStr.rfind_at sub s k last = None <-> last = None /\ ~ occurs sub s.
Proof.
  revert k last. induction s as [|c s IH]; intros k last; cbn [PyStr.rfind_at].
  - rewrite occurs_nil. destruct sub; simpl.
    + split; [discriminate | intros [_ H]; done].
    + split; [intros ->; done | intros [-> _]; done].
  - rewrite IH, occurs_cons.
    destruct (String.prefix sub (String c s)); split.
    + intros [? _]. done.
    + intros [_ H]. destruct H. auto.
    + intros [-> H]. split; [done|]. intros [?|?]; done.
    + intros [-> H]. split; [done|]. auto.
Qed.

Lemma rfind_None s sub : PyStr.rfind s sub = None <-> ~ occurs sub s.
Proof. unfold PyStr.rfind. rewrite rfind_at_None. tauto. Qed.

Lemma classic_occurs sub s : occurs sub s \/ ~ occurs sub s.
Proof.
  induction s as [|c s IH].
  - rewrite occurs_nil. destruct (decide (sub = "")); auto.
  - rewrite occurs_cons.
    destruct (String.prefix sub (String c s)); [auto|].
    destruct IH; [auto|]. right. intros [?|?]; done.
Qed.

Lemma rfind_Some_iff s sub : PyStr.rfind s sub <> None <-> occurs sub s.
Proof.
  rewrite rfind_None. destruct (classic_occurs sub s); tauto.
Qed.

(** ** The constructor *)

Lemma __init___inv default_codes o p :
  __init__ default_codes o = Next p ->
  bb_codes p !! "GLOBAL" = Some DefaultGlobalBBCode
  /\ (0 < bb_code_count p)%nat
  /\ (forall l, o_allowed_codes o = Some l -> allowed_codes p = l).
Proof.
  unfold __init__. intros H.
  destruct (match o_settings o with
            | Some items => copy_settings items default_settings
            | None => Next default_settings
            end) as [sett| | |]; simpl in H; try discriminate.
  set (cs := match o_codes o with
             | Some cs => if default false (o_replaceDefaults o) then cs
                          else cs ∪ default_codes
             | None => default_codes
             end) in *.
  destruct (is_valid_key cs "GLOBAL") eqn:Hg; simpl in H.
  - injection H as <-. simpl. split; [apply lookup_insert_eq|]. split.
    + apply bool_decide_eq_true in Hg as [g Hg].
      destruct (decide (size cs = 0)) as [Hz|]; [|lia].
      apply map_size_empty_iff in Hz. rewrite Hz in Hg. done.
    + intros l ->. done.
  - unfold getitem in H. apply bool_decide_eq_false in Hg.
    destruct (cs !! "GLOBAL") eqn:E; [destruct Hg; eauto | discriminate].
Qed.

Example init_silent : __init__ ∅ silent_options = Next silent_parser.
Proof. vm_compute. reflexivity. Qed.

(** Constructing a parser over an empty registry fails on line 337. *)
Example init_empty_registry :
  __init__ ∅ {| o_all_or_nothing := None; o_handle_overlapping_codes := None;
                o_escape_content_output := None; o_code_start_symbol := None;
                o_code_end_symbol := None; o_settings := None;
                o_codes := Some ∅; o_replaceDefaults := Some true;
                o_allowed_codes := None |} = Raise KeyError.
Proof. reflexivity. Qed.

(** ** Claims about [format] *)

(** A parser constructed with an empty [allowed_codes] list formats every
    input to itself: nothing is parsed, replaced or escaped, whatever
    [escape_content_output] is. *)
Lemma format_empty_allowed default_codes o p finput fo :
  __init__ default_codes o = Next p ->
  o_allowed_codes o = Some [] ->
  format p finput fo = Ok finput.
Proof.
  intros Hinit Ho. apply __init___inv in Hinit as (_ & _ & Hallowed).
  unfold format. rewrite (Hallowed _ Ho). simpl. by rewrite andb_false_r.
Qed.

(** C10. No parser with an empty registry comes out of the constructor:
    with [codes: {}] and [replaceDefaults], line 337 reads the key GLOBAL
    that is not there and [__init__] raises [KeyError], whether the
    default table was empty or not and whether an [allowed_codes] list is
    given or not.  The other half of the claim holds: the parser
    constructed with the empty [allowed_codes] list returns an input with
    codes and a [<] in it as it is. *)
Theorem empty_registry_not_constructed :
  __init__ example_codes empty_registry_options = Raise KeyError
  /\ __init__ ∅ empty_registry_options = Raise KeyError
  /\ __init__ example_codes empty_registry_silent_options = Raise KeyError
  /\ __init__ ∅ silent_options = Next silent_parser
  /\ format silent_parser "[b]1 < 2[/b]" no_format_options = Ok "[b]1 < 2[/b]".
Proof. repeat split; vm_compute; reflexivity. Qed.

(** For a constructed parser and an input in which the start symbol and
    the end symbol do not both occur, [format] returns the input, with
    content escaping on or off and whatever handler was registered as
    GLOBAL: line 595 calls the GLOBAL handler that line 341 has put into
    the registry. *)
Lemma format_plain_unescaped default_codes o p finput fo :
  __init__ default_codes o = Next p ->
  ~ (occurs (code_start_symbol p) finput /\ occurs (code_end_symbol p) finput) ->
  format p finput fo = Ok finput.
Proof.
  intros Hinit Hno. apply __init___inv in Hinit as (Hg & _ & _).
  unfold format.
  destruct ((0 <? bb_code_count p)%nat && (0 <? length (allowed_codes p))%nat);
    [|done].
  rewrite _replace_plain.
  - rewrite Hg. by destruct (default _ _).
  - destruct (PyStr.rfind finput (code_start_symbol p)) eqn:Es; [|by left].
    destruct (PyStr.rfind finput (code_end_symbol p)) eqn:Ee; [|by right].
    destruct Hno. split.
    + destruct (classic_occurs (code_start_symbol p) finput) as [?|Hn]; [done|].
      apply rfind_None in Hn. congruence.
    + destruct (classic_occurs (code_end_symbol p) finput) as [?|Hn]; [done|].
      apply rfind_None in Hn. congruence.
Qed.

(** C6. The passthrough of an input without a pair of delimiters fails in
    two ways.  [example_parser] was constructed with [HTMLGlobalBBCode]
    registered as GLOBAL, which escapes the input [1 < 2] to [1 &lt; 2];
    with content escaping on, [format] returns [1 < 2] as it is, since
    line 341 has put [DefaultGlobalBBCode] in the place of the registered
    handler.  And on the input [a]b[c], in which both symbols occur but no
    start symbol is followed by an end symbol, [format] raises
    [TypeError], with content escaping on or off. *)
Theorem format_without_pair_diverges :
  example_codes !! "GLOBAL" = Some HTMLGlobalBBCode
  /\ __init__ ∅ example_options = Next example_parser
  /\ escape_content_output example_parser = true
  /\ escape HTMLGlobalBBCode (settings example_parser) "1 < 2" = "1 &lt; 2"
  /\ format example_parser "1 < 2" no_format_options = Ok "1 < 2"
  /\ format example_parser "1 < 2" no_format_options
     <> Ok (escape HTMLGlobalBBCode (settings example_parser) "1 < 2")
  /\ format example_parser "a]b[c" no_format_options = Exc TypeError
  /\ format example_parser "a]b[c" raw_output = Exc TypeError.
Proof.
  repeat split; try (vm_compute; reflexivity). vm_compute. discriminate.
Qed.

(** A symbol alone is not parsed either. *)
Example format_single_symbol :
  format example_parser "a[b" no_format_options = Ok "a[b"
  /\ format example_parser "a]b" no_format_options = Ok "a]b".
Proof. split; vm_compute; reflexivity. Qed.

(** Once both symbols occur, [format] raises for every parser that has
    codes to look for, in both all-or-nothing modes. *)
Lemma format_raises p finput fo :
  (0 < bb_code_count p)%nat -> allowed_codes p <> [] ->
  occurs (code_start_symbol p) finput -> occurs (code_end_symbol p) finput ->
  format p finput fo = Exc TypeError.
Proof.
  intros Hc Ha Hs He. unfold format.
  apply Nat.ltb_lt in Hc. rewrite Hc.
  destruct (allowed_codes p) as [|a l]; [done|]. simpl.
  apply _replace_raises; by apply rfind_Some_iff.
Qed.

(** C1. [format] is not total: with a well-formed pair of tags, with an
    unmatched tag, with a stray end symbol before a start symbol, with a
    close tag that names no registered code, with empty brackets and with
    trailing text, the call raises [TypeError] whether all-or-nothing is
    on or off. *)
Theorem format_raises_on_codes :
  Forall (fun finput =>
            format example_parser finput no_format_options = Exc TypeError
            /\ format example_parser finput keep_going = Exc TypeError)
    ["[b]hi[/b]"; "[b]hi"; "a]b[c"; "[/zzz]"; "x[]y"; "[b]hi[/i] tail"].
Proof. repeat constructor; vm_compute; reflexivity. Qed.

(** ** The backward scans *)

Lemma nearest_before_here (P : Token -> Prop) queue i t :
  queue !! i = Some t -> P t -> nearest_before P queue (S i) (Some i).
Proof.
  intros Ht HP. split; [lia|]. split; [eauto|]. intros j t' Hj. lia.
Qed.

Lemma nearest_before_skip (P : Token -> Prop) queue i r :
  (forall t, queue !! i = Some t -> ~ P t) ->
  nearest_before P queue i r -> nearest_before P queue (S i) r.
Proof.
  intros Hi. destruct r as [s|]; simpl.
  - intros (Hs & Ht & Hbetween). split; [lia|]. split; [done|].
    intros j t Hj Hjt. destruct (decide (j = i)) as [->|]; [by apply Hi|].
    apply (Hbetween j); [lia | done].
  - intros Hnone j t Hj Hjt. destruct (decide (j = i)) as [->|]; [by apply Hi|].
    apply (Hnone j); [lia | done].
Qed.

Lemma nearest_before_ext (P Q : Token -> Prop) queue i r :
  (forall t, P t <-> Q t) ->
  nearest_before P queue i r -> nearest_before Q queue i r.
Proof.
  intros HPQ. destruct r as [s|]; simpl.
  - intros (Hs & (t & Ht & HP) & Hbetween). split; [done|]. split.
    + exists t. split; [done | by apply HPQ].
    + intros j t' Hj Hjt HQ. apply (Hbetween j t'); [done | done | by apply HPQ].
  - intros Hnone j t Hj Hjt HQ. apply (Hnone j t); [done | done | by apply HPQ].
Qed.

(** [_find_start_code_with_status] returns the nearest earlier start code
    with the given status. *)
Lemma _find_start_code_with_status_spec queue st i :
  (i <= length queue)%nat ->
  exists r, _find_start_code_with_status queue st i = Next r
    /\ nearest_before (fun t => ttype t = CODE_START /\ status t = st) queue i r.
Proof.
  induction i as [|i IH]; intros Hlen; cbn [_find_start_code_with_status].
  - exists None. split; [done|]. intros j t Hj. lia.
  - destruct (lookup_lt_is_Some_2 queue i) as [t Ht]; [lia|]. rewrite Ht.
    destruct IH as (r & Hr & Hnear); [lia|].
    destruct (bool_decide (ttype t = CODE_START)) eqn:E1;
      [destruct (bool_decide (status t = st)) eqn:E2|]; cbn [andb].
    + apply bool_decide_eq_true in E1, E2. exists (Some i).
      split; [done|]. by eapply nearest_before_here.
    + apply bool_decide_eq_false in E2. exists r. split; [done|].
      apply nearest_before_skip; [|done]. intros t' Ht'. simplify_eq. tauto.
    + apply bool_decide_eq_false in E1. exists r. split; [done|].
      apply nearest_before_skip; [|done]. intros t' Ht'. simplify_eq. tauto.
Qed.

(** [_find_start_code_of_type] returns the nearest earlier start code that
    is still undetermined and has the given name. *)
Lemma _find_start_code_of_type_spec queue c i :
  (i <= length queue)%nat ->
  exists r, _find_start_code_of_type queue c i = Next r
    /\ nearest_before
         (fun t => ttype t = CODE_START /\ status t = UNDETERMINED /\ content t = c)
         queue i r.
Proof.
  induction i as [|i IH]; intros Hlen; cbn [_find_start_code_of_type].
  - exists None. split; [done|]. intros j t Hj. lia.
  - destruct (lookup_lt_is_Some_2 queue i) as [t Ht]; [lia|]. rewrite Ht.
    destruct IH as (r & Hr & Hnear); [lia|].
    destruct (bool_decide (ttype t = CODE_START)) eqn:E1;
      [destruct (bool_decide (status t = UNDETERMINED)) eqn:E2;
       [destruct (bool_decide (content t = c)) eqn:E3|]|]; cbn [andb].
    + apply bool_decide_eq_true in E1, E2, E3. exists (Some i).
      split; [done|]. by eapply nearest_before_here.
    + apply bool_decide_eq_false in E3. exists r. split; [done|].
      apply nearest_before_skip; [|done]. intros t' Ht'. simplify_eq. tauto.
    + apply bool_decide_eq_false in E2. exists r. split; [done|].
      apply nearest_before_skip; [|done]. intros t' Ht'. simplify_eq. tauto.
    + apply bool_decide_eq_false in E1. exists r. split; [done|].
      apply nearest_before_skip; [|done]. intros t' Ht'. simplify_eq. tauto.
Qed.

Lemma nearest_before_lookup (P : Token -> Prop) queue i s :
  nearest_before P queue i (Some s) ->
  (s < i)%nat /\ exists t, queue !! s = Some t /\ P t.
Proof. intros (? & ? & _). done. Qed.

(** ** The pairing loop *)

Section Pairing.

Variable codes : gmap string BBCode.
Variable overlap : bool.

(** The scan of the pairing loop at an index of the queue. *)
Lemma pairing_scan queue c i :
  (i <= length queue)%nat ->
  exists r,
    (if overlap then _find_start_code_of_type queue c i
     else _find_start_code_with_status queue UNDETERMINED i) = Next r
    /\ nearest_before
         (fun t => ttype t = CODE_START /\ status t = UNDETERMINED
                   /\ (overlap = true -> content t = c)) queue i r.
Proof.
  intros Hlen. destruct overlap.
  - destruct (_find_start_code_of_type_spec queue c i Hlen) as (r & Hr & Hnear).
    exists r. split; [done|]. eapply nearest_before_ext; [|exact Hnear].
    intros t. simpl. tauto.
  - destruct (_find_start_code_with_status_spec queue UNDETERMINED i Hlen)
      as (r & Hr & Hnear).
    exists r. split; [done|]. eapply nearest_before_ext; [|exact Hnear].
    intros t. simpl. split; [intros [? ?] | intros (? & ? & _)]; done.
Qed.

Lemma mark_pair_lookup_end s i queue token :
  s <> i -> queue !! i = Some token ->
  mark_pair s i queue !! i = Some (with_matches (Some s) (with_status VALID token)).
Proof.
  intros Hne Hi. unfold mark_pair.
  rewrite list_lookup_alter_ne by done. rewrite list_lookup_alter_eq, Hi. done.
Qed.

Lemma mark_pair_lookup_start s i queue t :
  s <> i -> queue !! s = Some t ->
  mark_pair s i queue !! s = Some (with_matches (Some i) (with_status VALID t)).
Proof.
  intros Hne Hs. unfold mark_pair.
  rewrite list_lookup_alter_eq. rewrite list_lookup_alter_ne by done.
  rewrite Hs. done.
Qed.

Lemma mark_pair_lookup_other s i queue j :
  j <> i -> j <> s -> mark_pair s i queue !! j = queue !! j.
Proof.
  intros Hi Hs. unfold mark_pair. by rewrite !list_lookup_alter_ne.
Qed.

(** C9. In the pairing loop a start code whose handler needs no end is
    marked valid, and an end code whose handler needs no end becomes a
    content token and is marked valid; no other token changes. *)
Theorem self_contained_codes queue i token h :
  queue !! i = Some token ->
  status token <> NOIMPLFOUND -> status token <> NOTALLOWED ->
  (ttype token = CODE_START /\ codes !! content token = Some h)
  \/ (ttype token = CODE_END
      /\ codes !! PyStr.slice_from (content token) 1 = Some h) ->
  needs_end h = false ->
  exists queue',
    mark_token codes overlap queue i = Next queue'
    /\ queue' !! i =
         Some (if decide (ttype token = CODE_START)
               then with_status VALID token
               else with_status VALID (with_ttype CONTENT token))
    /\ forall j, j <> i -> queue' !! j = queue !! j.
Proof.
  intros Hi Hn1 Hn2 Hcase Hneeds. unfold mark_token. rewrite Hi.
  rewrite !bool_decide_eq_true_2 by done. cbn [andb].
  destruct Hcase as [[Hty Hh] | [Hty Hh]]; rewrite Hty; unfold getitem;
    rewrite Hh; simpl; rewrite Hneeds; simpl; eexists; (split; [done|]);
    rewrite list_lookup_alter_eq, Hi; (split; [done|]);
    intros j Hj; by rewrite list_lookup_alter_ne.
Qed.

(** C3. In the pairing loop an end code whose handler needs an end is
    paired with the nearest earlier start code that is still undetermined
    (and has the same name, when overlapping codes are handled).  When
    there is none, or its name differs, the end code becomes invalid;
    otherwise both become valid and each records the index of the other.
    No other token changes. *)
Theorem end_code_pairing queue i token h :
  queue !! i = Some token ->
  ttype token = CODE_END ->
  status token <> NOIMPLFOUND -> status token <> NOTALLOWED ->
  codes !! PyStr.slice_from (content token) 1 = Some h ->
  needs_end h = true ->
  exists r queue',
    mark_token codes overlap queue i = Next queue'
    /\ nearest_before
         (fun t => ttype t = CODE_START /\ status t = UNDETERMINED
                   /\ (overlap = true ->
                       content t = PyStr.slice_from (content token) 1))
         queue i r
    /\ match r with
       | Some s =>
           exists t, queue !! s = Some t /\
             if decide (content t = PyStr.slice_from (content token) 1) then
               queue' !! i = Some (with_matches (Some s) (with_status VALID token))
               /\ queue' !! s = Some (with_matches (Some i) (with_status VALID t))
               /\ forall j, j <> i -> j <> s -> queue' !! j = queue !! j
             else
               queue' !! i = Some (with_status INVALID token)
               /\ forall j, j <> i -> queue' !! j = queue !! j
       | None =>
           queue' !! i = Some (with_status INVALID token)
           /\ forall j, j <> i -> queue' !! j = queue !! j
       end.
Proof.
  intros Hi Hty Hn1 Hn2 Hh Hneeds.
  set (c := PyStr.slice_from (content token) 1) in *.
  destruct (pairing_scan queue c i) as (r & Hscan & Hr).
  { apply lookup_lt_Some in Hi. lia. }
  assert (Hinvalid :
    alter (with_status INVALID) i queue !! i = Some (with_status INVALID token)
    /\ forall j, j <> i -> alter (with_status INVALID) i queue !! j = queue !! j).
  { rewrite list_lookup_alter_eq, Hi. split; [done|].
    intros j Hj. by rewrite list_lookup_alter_ne. }
  exists r.
  unfold mark_token. rewrite Hi.
  rewrite !bool_decide_eq_true_2 by done. cbn [andb]. rewrite Hty.
  unfold getitem. fold c. rewrite Hh. simpl. rewrite Hneeds. simpl.
  rewrite Hscan. simpl. destruct r as [s|].
  - destruct (nearest_before_lookup _ _ _ _ Hr) as (Hlt & t & Hs & _).
    rewrite Hs. destruct (decide (content t = c)) as [Hc|Hc].
    + rewrite bool_decide_eq_false_2 by (intros ?; done).
      eexists. split; [done|]. split; [done|]. exists t. split; [done|].
      rewrite decide_True by done.
      assert (s <> i) by lia.
      split; [by apply mark_pair_lookup_end|].
      split; [by apply mark_pair_lookup_start|].
      intros j ? ?. by apply mark_pair_lookup_other.
    + rewrite bool_decide_eq_true_2 by done.
      eexists. split; [done|]. split; [done|]. exists t. split; [done|].
      rewrite decide_False by done. done.
  - eexists. split; [done|]. split; [done|]. done.
Qed.

End Pairing.

Lemma self_contained_codes_witness :
  exists queue',
    mark_token (<["GLOBAL" := DefaultGlobalBBCode]> example_codes) false
      [mkToken CONTENT "a" None; mkToken CODE_END "/GLOBAL" None] 1
      = Next queue'
    /\ queue' !! 1%nat =
         Some (if decide (ttype (mkToken CODE_END "/GLOBAL" None) = CODE_START)
               then with_status VALID (mkToken CODE_END "/GLOBAL" None)
               else with_status VALID
                      (with_ttype CONTENT (mkToken CODE_END "/GLOBAL" None)))
    /\ forall j, j <> 1%nat ->
         queue' !! j
         = [mkToken CONTENT "a" None; mkToken CODE_END "/GLOBAL" None] !! j.
Proof.
  apply (self_contained_codes _ false _ 1 (mkToken CODE_END "/GLOBAL" None)
           DefaultGlobalBBCode).
  - reflexivity.
  - discriminate.
  - discriminate.
  - right. split; vm_compute; reflexivity.
  - reflexivity.
Defined.

Lemma end_code_pairing_witness :
  exists r queue',
    mark_token parser_codes false queue_bold 2 = Next queue'
    /\ nearest_before
         (fun t => ttype t = CODE_START /\ status t = UNDETERMINED
                   /\ (false = true ->
                       content t
                       = PyStr.slice_from (content (mkToken CODE_END "/b" None)) 1))
         queue_bold 2 r
    /\ match r with
       | Some s =>
           exists t, queue_bold !! s = Some t /\
             if decide (content t
                        = PyStr.slice_from (content (mkToken CODE_END "/b" None)) 1)
             then
               queue' !! 2%nat
               = Some (with_matches (Some s)
                         (with_status VALID (mkToken CODE_END "/b" None)))
               /\ queue' !! s = Some (with_matches (Some 2%nat) (with_status VALID t))
               /\ forall j, j <> 2%nat -> j <> s -> queue' !! j = queue_bold !! j
             else
               queue' !! 2%nat
               = Some (with_status INVALID (mkToken CODE_END "/b" None))
               /\ forall j, j <> 2%nat -> queue' !! j = queue_bold !! j
       | None =>
           queue' !! 2%nat = Some (with_status INVALID (mkToken CODE_END "/b" None))
           /\ forall j, j <> 2%nat -> queue' !! j = queue_bold !! j
       end.
Proof.
  apply (end_code_pairing parser_codes false queue_bold 2
           (mkToken CODE_END "/b" None) HTMLBoldBBCode).
  - reflexivity.
  - reflexivity.
  - discriminate.
  - discriminate.
  - vm_compute. reflexivity.
  - reflexivity.
Defined.

Example pairing_bold :
  pairing_pass parser_codes true false "[b]hi[/b]" queue_bold =
  Next [with_matches (Some 2%nat) (with_status VALID (mkToken CODE_START "b" None));
        mkToken CONTENT "hi" None;
        with_matches (Some 0%nat) (with_status VALID (mkToken CODE_END "/b" None))].
Proof. vm_compute. reflexivity. Qed.

Example pairing_mismatch :
  pairing_pass parser_codes false false "[b]hi[/i]" queue_mismatch =
    Next [mkToken CODE_START "b" None; mkToken CONTENT "hi" None;
          with_status INVALID (mkToken CODE_END "/i" None)]
  /\ pairing_pass parser_codes false true "[b]hi[/i]" queue_mismatch =
    Next [mkToken CODE_START "b" None; mkToken CONTENT "hi" None;
          with_status INVALID (mkToken CODE_END "/i" None)]
  /\ pairing_pass parser_codes true false "[b]hi[/i]" queue_mismatch =
    Return "[b]hi[/i]".
Proof. repeat split; vm_compute; reflexivity. Qed.

(** ** Matched pairs stay consistent *)

Lemma pairing_inv_start queue : unmatched_queue queue -> pairing_inv 0 queue.
Proof.
  intros Hq. repeat split.
  - intros i j t Hi Hm. rewrite (Hq i t Hi) in Hm. discriminate.
  - intros i t Hi _. by apply (Hq i).
  - intros i t Hi _. by apply (Hq i).
Qed.

Lemma pairing_inv_consistent n queue : pairing_inv n queue -> pair_consistent queue.
Proof.
  intros (H1 & _ & _) i j t Hi Hm.
  destruct (H1 i j t Hi Hm) as (t' & Hj & Hm' & Hv & Hv'). eauto 10.
Qed.

Lemma pairing_inv_same n queue : pairing_inv n queue -> pairing_inv (S n) queue.
Proof.
  intros (H1 & H2 & H3). repeat split; [done | done |].
  intros i t Hi Hn. apply (H3 i); [done | lia].
Qed.

(** A change of the token at [n] that leaves its match alone and does not
    make it undetermined. *)
Lemma pairing_inv_alter n queue (f : Token -> Token) :
  (forall t, matches (f t) = matches t) ->
  (forall t, status (f t) <> UNDETERMINED) ->
  pairing_inv n queue -> pairing_inv (S n) (alter f n queue).
Proof.
  intros Hfm Hfs (H1 & H2 & H3). repeat split.
  - intros i j t Hi Hm. rewrite list_lookup_alter in Hi.
    destruct (decide (n = i)) as [<-|Hne].
    + destruct (queue !! n) as [t0|] eqn:E; [|done]. simpl in Hi.
      injection Hi as <-. rewrite Hfm, (H3 n t0 E) in Hm; [done | lia].
    + destruct (H1 i j t Hi Hm) as (t' & Hj & Hm' & Hv & Hv').
      assert (n <> j).
      { intros <-. rewrite (H3 n t' Hj) in Hm'; [done | lia]. }
      exists t'. by rewrite list_lookup_alter_ne.
  - intros i t Hi Hu. rewrite list_lookup_alter in Hi.
    destruct (decide (n = i)) as [<-|Hne]; [|by apply (H2 i)].
    destruct (queue !! n) as [t0|]; [|done]. simpl in Hi.
    injection Hi as <-. by destruct (Hfs t0).
  - intros i t Hi Hn. rewrite list_lookup_alter_ne in Hi by lia.
    apply (H3 i); [done | lia].
Qed.

Lemma pairing_inv_mark_pair n queue s ts :
  (s < n)%nat -> queue !! s = Some ts -> status ts = UNDETERMINED ->
  is_Some (queue !! n) ->
  pairing_inv n queue -> pairing_inv (S n) (mark_pair s n queue).
Proof.
  intros Hlt Hs Hu [tn Hn] (H1 & H2 & H3).
  assert (Hsn : s <> n) by lia.
  assert (Hms : matches ts = None) by by apply (H2 s).
  assert (Hmn : matches tn = None) by (apply (H3 n); [done | lia]).
  pose proof (mark_pair_lookup_end s n queue tn Hsn Hn) as Hend.
  pose proof (mark_pair_lookup_start s n queue ts Hsn Hs) as Hstart.
  repeat split.
  - intros i j t Hi Hm.
    destruct (decide (i = n)) as [->|Hin].
    { rewrite Hend in Hi. injection Hi as <-. simpl in Hm. injection Hm as <-.
      eexists. split; [exact Hstart|]. done. }
    destruct (decide (i = s)) as [->|His].
    { rewrite Hstart in Hi. injection Hi as <-. simpl in Hm. injection Hm as <-.
      eexists. split; [exact Hend|]. done. }
    rewrite mark_pair_lookup_other in Hi by done.
    destruct (H1 i j t Hi Hm) as (t' & Hj & Hm' & Hv & Hv').
    assert (j <> n) by (intros ->; congruence).
    assert (j <> s) by (intros ->; congruence).
    exists t'. by rewrite mark_pair_lookup_other.
  - intros i t Hi Hund.
    destruct (decide (i = n)) as [->|Hin].
    { rewrite Hend in Hi. by injection Hi as <-. }
    destruct (decide (i = s)) as [->|His].
    { rewrite Hstart in Hi. by injection Hi as <-. }
    rewrite mark_pair_lookup_other in Hi by done. by apply (H2 i).
  - intros i t Hi Hge.
    rewrite mark_pair_lookup_other in Hi by lia. apply (H3 i); [done | lia].
Qed.

Lemma mark_token_inv codes overlap n queue queue' :
  pairing_inv n queue ->
  mark_token codes overlap queue n = Next queue' ->
  pairing_inv (S n) queue'.
Proof.
  intros Hinv. unfold mark_token.
  destruct (queue !! n) as [token|] eqn:Hn; [|discriminate].
  destruct (_ && _); [|intros [= <-]; by apply pairing_inv_same].
  destruct (ttype token).
  - intros [= <-]. by apply pairing_inv_same.
  - unfold getitem. destruct (codes !! content token) as [h|]; [|discriminate].
    simpl. destruct (negb (needs_end h)); intros [= <-].
    + by apply pairing_inv_alter.
    + by apply pairing_inv_same.
  - unfold getitem.
    destruct (codes !! PyStr.slice_from (content token) 1) as [h|]; [|discriminate].
    simpl. destruct (negb (needs_end h)).
    { intros [= <-]. by apply pairing_inv_alter. }
    destruct (pairing_scan overlap queue (PyStr.slice_from (content token) 1) n)
      as (r & -> & Hr).
    { apply lookup_lt_Some in Hn. lia. }
    simpl. destruct r as [s|]; [|intros [= <-]; by apply pairing_inv_alter].
    destruct Hr as (Hlt & (t & Hs & _ & Hu & _) & _). rewrite Hs.
    destruct (bool_decide (content t <> _)); intros [= <-].
    + by apply pairing_inv_alter.
    + by eapply pairing_inv_mark_pair.
  - intros [= <-]. by apply pairing_inv_same.
Qed.

Lemma pair_token_inv codes aon overlap finput n queue queue' :
  pairing_inv n queue ->
  pair_token codes aon overlap finput queue n = Next queue' ->
  pairing_inv (S n) queue'.
Proof.
  intros Hinv. unfold pair_token.
  destruct (mark_token codes overlap queue n) as [q| | |] eqn:Hmark; try discriminate.
  simpl. destruct (q !! n); [|discriminate].
  destruct (_ && _); [discriminate|]. intros [= <-].
  by eapply mark_token_inv.
Qed.

Lemma pairing_range_inv codes aon overlap finput k n queue queue' :
  pairing_inv n queue ->
  for_range (pair_token codes aon overlap finput) (seq n k) queue = Next queue' ->
  pairing_inv (n + k) queue'.
Proof.
  revert n queue. induction k as [|k IH]; intros n queue Hinv; simpl.
  - intros [= <-]. by rewrite Nat.add_0_r.
  - destruct (pair_token codes aon overlap finput queue n) as [q| | |] eqn:Hstep;
      try discriminate.
    simpl. intros Hrest. replace (n + S k)%nat with (S n + k)%nat by lia.
    apply (IH (S n) q); [|done]. by eapply pair_token_inv.
Qed.

(** After the pairing loop every match is mutual and both sides are valid. *)
Lemma pairing_pass_consistent codes aon overlap finput queue queue' :
  unmatched_queue queue ->
  pairing_pass codes aon overlap finput queue = Next queue' ->
  pair_consistent queue'.
Proof.
  intros Hq Hpass. eapply pairing_inv_consistent.
  eapply (pairing_range_inv _ _ _ _ (length queue) 0); [|exact Hpass].
  by apply pairing_inv_start.
Qed.

(** Marking both sides of a pair invalid keeps the queue consistent. *)
Lemma pair_consistent_invalidate queue i m t :
  queue !! i = Some t -> matches t = Some m ->
  pair_consistent queue ->
  pair_consistent (alter (with_status INVALID) m (alter (with_status INVALID) i queue)).
Proof.
  intros Hi Hm Hc.
  destruct (Hc i m t Hi Hm) as (tm & Hmm & Hmi & _).
  set (q' := alter _ m _).
  assert (Hlook : forall a, q' !! a =
            if decide (a = i \/ a = m) then with_status INVALID <$> queue !! a
            else queue !! a).
  { intros a. subst q'. destruct (decide (a = m)) as [->|Ham].
    - rewrite decide_True by auto. rewrite list_lookup_alter_eq, list_lookup_alter.
      destruct (decide (i = m)) as [->|]; [by destruct (queue !! m) | done].
    - rewrite list_lookup_alter_ne by done. rewrite list_lookup_alter.
      destruct (decide (i = a)) as [->|].
      + rewrite decide_True by auto. done.
      + rewrite decide_False by (intros [?|?]; done). done. }
  intros a j ta Ha Hma. rewrite Hlook in Ha.
  destruct (decide (a = i \/ a = m)) as [Ham|Ham].
  - destruct (queue !! a) as [ta0|] eqn:Ea; [|done]. injection Ha as <-.
    simpl in Hma.
    assert (j = i \/ j = m) as Hj.
    { destruct Ham as [->| ->]; simplify_eq; auto. }
    destruct (Hc a j ta0 Ea Hma) as (tj & Htj & Hmj & _).
    exists (with_status INVALID tj). rewrite Hlook, decide_True, Htj by done.
    split; [done|]. split; [done|]. right. done.
  - destruct (Hc a j ta Ha Hma) as (tj & Htj & Hmj & Hst).
    assert (~ (j = i \/ j = m)) as Hj.
    { intros [->| ->]; simplify_eq; tauto. }
    exists tj. rewrite Hlook, decide_False by done. done.
Qed.

(** A start code check that goes on to the next statement either leaves
    the queue alone or has marked the start code and its match invalid. *)
Lemma validate_start_queue sett codes aon finput queue i queue' :
  validate_start sett codes aon finput queue i = Next queue' ->
  queue' = queue
  \/ exists t m, queue !! i = Some t /\ matches t = Some m
       /\ queue' = alter (with_status INVALID) m (alter (with_status INVALID) i queue).
Proof.
  unfold validate_start, getitem, mbind, flow_bind. intros H.
  repeat (case_match; simplify_eq/=; try done); eauto 10.
Qed.

Lemma validate_start_consistent sett codes aon finput queue i queue' :
  pair_consistent queue ->
  validate_start sett codes aon finput queue i = Next queue' ->
  pair_consistent queue'.
Proof.
  intros Hc H. apply validate_start_queue in H as [->|(t & m & Hi & Hm & ->)];
    [done|]. by eapply pair_consistent_invalidate.
Qed.

Lemma validation_range_consistent sett codes aon finput indices queue queue' :
  pair_consistent queue ->
  for_range (validate_start sett codes aon finput) indices queue = Next queue' ->
  pair_consistent queue'.
Proof.
  revert queue. induction indices as [|i indices IH]; intros queue Hc; simpl.
  - by intros [= <-].
  - destruct (validate_start sett codes aon finput queue i) as [q| | |] eqn:Hstep;
      try discriminate.
    simpl. apply IH. by eapply validate_start_consistent.
Qed.

(** C8. Start from a queue without matches.  When the pairing loop has
    run to its end, and after any further run of start-code checks that
    reaches its end, every token that records a match is recorded back by
    its partner, and the two are either both valid or both not valid. *)
Theorem pair_status_invariant sett codes aon overlap finput queue q1 indices q2 :
  unmatched_queue queue ->
  pairing_pass codes aon overlap finput queue = Next q1 ->
  for_range (validate_start sett codes aon finput) indices q1 = Next q2 ->
  pair_consistent q1 /\ pair_consistent q2.
Proof.
  intros Hq Hpair Hvalid.
  assert (pair_consistent q1) by by eapply pairing_pass_consistent.
  split; [done|]. by eapply validation_range_consistent.
Qed.

Lemma pair_status_invariant_witness :
  pair_consistent queue_bold_argument_paired
  /\ pair_consistent queue_bold_argument_invalid.
Proof.
  apply (pair_status_invariant default_settings parser_codes false false
           "[b=x]hi[/b]" queue_bold_argument queue_bold_argument_paired
           [0%nat] queue_bold_argument_invalid).
  - intros i t Hi. destruct i as [|[|[|i]]]; simpl in Hi; by simplify_eq.
  - vm_compute. reflexivity.
  - vm_compute. reflexivity.
Defined.

(** The final loop changes the queue through the start-code checks only. *)
Lemma render_token_consistent sett codes aon overlap esc finput queue stack output i
    queue' stack' output' :
  pair_consistent queue ->
  render_token sett codes aon overlap esc finput (queue, stack, output) i
    = Next (queue', stack', output') ->
  pair_consistent queue'.
Proof.
  intros Hc. unfold render_token.
  destruct (queue !! i) as [token|]; [|discriminate].
  destruct (ttype token).
  - by intros [= <- _ _].
  - destruct (validate_start sett codes aon finput queue i) as [q| | |] eqn:Hv;
      try discriminate.
    apply (validate_start_consistent _ _ _ _ _ _ _ Hc) in Hv.
    unfold mbind, flow_bind, getitem.
    intros H. repeat (case_match; simplify_eq/=; try done).
  - unfold mbind, flow_bind, getitem.
    intros H. repeat (case_match; simplify_eq/=; try done).
  - unfold mbind, flow_bind, getitem.
    intros H. repeat (case_match; simplify_eq/=; try done).
Qed.

Lemma render_range_consistent sett codes aon overlap esc finput indices st st' :
  pair_consistent st.1.1 ->
  for_range (render_token sett codes aon overlap esc finput) indices st = Next st' ->
  pair_consistent st'.1.1.
Proof.
  revert st. induction indices as [|i indices IH]; intros st Hc; simpl.
  - by intros [= <-].
  - destruct (render_token sett codes aon overlap esc finput st i)
      as [[[q stk] out]| | |] eqn:Hstep; try discriminate.
    simpl. apply IH. destruct st as [[q0 stk0] out0].
    by eapply render_token_consistent.
Qed.

(** The queue at the end of a final loop that ran to its end. *)
Lemma render_pass_consistent sett codes aon overlap esc finput queue q1 q2 stack output :
  unmatched_queue queue ->
  pairing_pass codes aon overlap finput queue = Next q1 ->
  render_pass sett codes aon overlap esc finput q1 = Next (q2, stack, output) ->
  pair_consistent q2.
Proof.
  intros Hq Hpair Hrender.
  apply (render_range_consistent sett codes aon overlap esc finput
           (seq 0 (length q1)) (q1, [], "") (q2, stack, output)); [|exact Hrender].
  simpl. by eapply pairing_pass_consistent.
Qed.

(** ** Where the loops stop short *)

(** Under all-or-nothing the pairing loop does return the input as soon
    as a token has become invalid. *)
Lemma pair_token_abort codes overlap finput queue i queue' token :
  mark_token codes overlap queue i = Next queue' ->
  queue' !! i = Some token -> status token = INVALID ->
  pair_token codes true overlap finput queue i = Return finput.
Proof.
  intros Hmark Hi Hst. unfold pair_token. rewrite Hmark. simpl.
  rewrite Hi. by rewrite bool_decide_eq_true_2.
Qed.

(** An end code that is not valid is never printed. *)
Lemma render_end_not_valid sett codes aon overlap esc finput queue stack output i token :
  queue !! i = Some token -> ttype token = CODE_END -> status token <> VALID ->
  render_token sett codes aon overlap esc finput (queue, stack, output) i
    = Raise AttributeError.
Proof.
  intros Hi Hty Hst. unfold render_token. rewrite Hi, Hty.
  by rewrite bool_decide_eq_false_2.
Qed.

(** Neither is a start code without implementation or not allowed. *)
Lemma render_start_rejected sett codes aon overlap esc finput queue stack output i token :
  queue !! i = Some token -> ttype token = CODE_START ->
  status token = NOIMPLFOUND \/ status token = NOTALLOWED ->
  render_token sett codes aon overlap esc finput (queue, stack, output) i
    = Raise AttributeError.
Proof.
  intros Hi Hty Hst. unfold render_token, validate_start. rewrite Hi, Hty.
  assert (bool_decide (status token <> NOIMPLFOUND)
          && bool_decide (status token <> NOTALLOWED) = false) as ->.
  { destruct Hst as [-> | ->]; done. }
  simpl. rewrite Hi.
  assert (bool_decide (status token = VALID) = false) as ->.
  { destruct Hst as [-> | ->]; done. }
  simpl. rewrite Hi.
  assert (bool_decide (status token = VALID) = false) as ->.
  { destruct Hst as [-> | ->]; done. }
  by destruct (argument token).
Qed.

(** [_array_remove(stack, match, True)] does not come back when the first
    element of the stack is not [match]. *)
Lemma _array_remove_spins {A} `{EqDecision A} fuel (x : A) stack match_ :
  x <> match_ -> _array_remove fuel (x :: stack) match_ true = Spin.
Proof.
  intros Hne. unfold _array_remove.
  assert (Hcount : (0 <? Z.of_nat (length (x :: stack)))%Z = true)
    by (apply Z.ltb_lt; simpl; lia).
  induction fuel as [|fuel IH]; [done|].
  cbn [_array_remove_loop]. rewrite Hcount.
  unfold py_index. simpl. by rewrite decide_False.
Qed.

(** With [first] set, a match at the head of the stack is removed at
    once. *)
Lemma _array_remove_head {A} `{EqDecision A} fuel (x : A) stack :
  _array_remove (S fuel) (x :: stack) x true = Next stack.
Proof.
  unfold _array_remove. cbn [_array_remove_loop].
  assert ((0 <? Z.of_nat (length (x :: stack)))%Z = true) as ->
    by (apply Z.ltb_lt; simpl; lia).
  unfold py_index. change (0 <=? 0)%Z with true. cbn iota.
  change ((x :: stack) !! Z.to_nat 0) with (Some x).
  unfold py_del_slice, py_clamp.
  change (0 <? 0)%Z with false. change (0 + 1 <? 0)%Z with false. cbn iota.
  rewrite Z.min_l by lia. rewrite Z.min_l by (simpl length; lia).
  rewrite decide_True by done. reflexivity.
Qed.

(** C2. Under all-or-nothing the input is not returned: [format] raises
    on a mismatched close, and on queues that reach the final loop a start
    code with a parent it rejects ends in [NameError] and a start code that
    was never closed in [TypeError]; only an end code made invalid by the
    pairing loop returns the input. *)
Theorem all_or_nothing_raises :
  format example_parser "[b]hi[/i]" no_format_options = Exc TypeError
  /\ replace_queue default_settings parser_codes true false true
       "[li]x[/li]" queue_list_item = Raise NameError
  /\ replace_queue default_settings parser_codes true false true
       "[b]hi" queue_unclosed = Raise TypeError
  /\ replace_queue default_settings parser_codes true false true
       "[b]hi[/i]" queue_mismatch = Return "[b]hi[/i]".
Proof. repeat split; vm_compute; reflexivity. Qed.

(** C4. A code that is not valid is not printed in its literal form: the
    final loop raises [AttributeError] on a code without implementation,
    and [format] raises before the queue exists. *)
Theorem rejected_codes_raise :
  replace_queue default_settings parser_codes false false true
    "[bogus]x[/bogus]" queue_bogus = Raise AttributeError
  /\ render_token default_settings parser_codes false false true
       "[bogus]x[/bogus]" (queue_bogus, [], "") 2 = Raise AttributeError
  /\ format example_parser "[bogus]x[/bogus]" keep_going = Exc TypeError.
Proof. repeat split; vm_compute; reflexivity. Qed.

(** C5. Content that follows a closed code is escaped by the handler of
    that code, not by the GLOBAL handler: after [b]x[/b] the text [<] has
    no enclosing start code, GLOBAL leaves it as it is, and the final loop
    prints the entity.  [format] itself raises on the input. *)
Theorem content_after_closed_code :
  pairing_pass parser_codes true false "[b]x[/b]<" queue_after_bold
    = Next queue_after_bold_paired
  /\ _find_parent_start_code queue_after_bold_paired 3 = Next None
  /\ _find_start_code_with_status queue_after_bold_paired VALID 3
       = Next (Some 0%nat)
  /\ (exists g, parser_codes !! "GLOBAL" = Some g
                /\ escape g default_settings "<" = "<")
  /\ replace_queue default_settings parser_codes true false true
       "[b]x[/b]<" queue_after_bold = Next "<b>x</b>&lt;"
  /\ format example_parser "[b]x[/b]<" no_format_options = Exc TypeError.
Proof.
  repeat split; try (vm_compute; reflexivity).
  exists DefaultGlobalBBCode. split; vm_compute; reflexivity.
Qed.

(** C7. No closing code is synthesized between two star codes: the loop
    that builds the queue raises at the first code.  The statements after
    that point would close a star that is first on the stack, and would
    not come back from [_array_remove] for one that is not. *)
Theorem auto_close_not_reached :
  format example_parser "[*]A[*]B" no_format_options = Exc TypeError
  /\ build_queue (allowed_codes example_parser) parser_codes "[" "]" 9
       (Tokenizer.init "[*]A[*]B") [] [] = Raise TypeError
  /\ (forall fuel, _array_remove fuel ["b"; "*"] "*" true = Spin)
  /\ emit_code (allowed_codes example_parser) parser_codes (Some "*")
       [mkToken CODE_START "b" None; mkToken CODE_START "*" None;
        mkToken CONTENT "A" None] ["b"; "*"] = Spin.
Proof.
  repeat split; try (vm_compute; reflexivity).
  intros fuel. by apply _array_remove_spins.
Qed.

(** What the statements after line 399 do with a star that is first on
    the stack. *)
Example emit_star_after_star :
  emit_code (allowed_codes example_parser) parser_codes (Some "*")
    [mkToken CODE_START "*" None; mkToken CONTENT "A" None] ["*"]
  = Next ([mkToken CODE_START "*" None; mkToken CONTENT "A" None;
           mkToken CODE_END "/*" None; mkToken CODE_START "*" None], ["*"]).
Proof. vm_compute. reflexivity. Qed.

(** A close tag that names no registered code is looked up before it is
    checked (line 415). *)
Example emit_unregistered_close :
  emit_code (allowed_codes example_parser) parser_codes (Some "/zzz") [] []
  = Raise KeyError.
Proof. vm_compute. reflexivity. Qed.

Example render_bold :
  replace_queue default_settings parser_codes true false true "[b]hi[/b]" queue_bold
  = Next "<b>hi</b>".
Proof. vm_compute. reflexivity. Qed.

(** * Further properties *)

(** ** One round of the pairing loop, case by case *)

Lemma mark_token_effect codes overlap queue i queue' :
  mark_token codes overlap queue i = Next queue' ->
  exists token, queue !! i = Some token /\ mark_effect overlap queue i token queue'.
Proof.
  unfold mark_token.
  destruct (queue !! i) as [token|] eqn:Hi; [|discriminate].
  intros H. exists token. split; [done|].
  destruct (bool_decide (status token <> NOIMPLFOUND)) eqn:E1;
    [|simplify_eq/=; constructor].
  destruct (bool_decide (status token <> NOTALLOWED)) eqn:E2;
    [|simplify_eq/=; constructor].
  apply bool_decide_eq_true in E1, E2. cbn [andb] in H.
  assert (Hrej : ~ rejected token) by (intros [?|?]; done).
  destruct (ttype token) eqn:Hty.
  - simplify_eq. constructor.
  - unfold getitem in H. destruct (codes !! content token) as [h|]; [|discriminate].
    simpl in H. destruct (negb (needs_end h)); simplify_eq; [|constructor].
    apply mark_alter; auto.
  - unfold getitem in H.
    destruct (codes !! PyStr.slice_from (content token) 1) as [h|]; [|discriminate].
    simpl in H. destruct (negb (needs_end h)).
    { simplify_eq. apply mark_alter; auto. }
    destruct (pairing_scan overlap queue (PyStr.slice_from (content token) 1) i)
      as (r & Hscan & Hr).
    { apply lookup_lt_Some in Hi. lia. }
    rewrite Hscan in H. simpl in H.
    destruct r as [s|]; [|simplify_eq; apply mark_alter; auto].
    destruct (nearest_before_lookup _ _ _ _ Hr) as (Hlt & t & Hs & _).
    rewrite Hs in H.
    destruct (decide (content t = PyStr.slice_from (content token) 1)) as [Hc|Hc].
    + rewrite bool_decide_eq_false_2 in H by (intros ?; done). simplify_eq.
      by eapply mark_match.
    + rewrite bool_decide_eq_true_2 in H by done. simplify_eq.
      apply mark_alter; auto.
  - simplify_eq. constructor.
Qed.

(** Induction along the pairing loop. *)
Lemma pairing_range_ind (I : nat -> list Token -> Prop) codes aon overlap finput :
  (forall n queue queue',
     I n queue -> pair_token codes aon overlap finput queue n = Next queue' ->
     I (S n) queue') ->
  forall k n queue queue',
    I n queue ->
    for_range (pair_token codes aon overlap finput) (seq n k) queue = Next queue' ->
    I (n + k)%nat queue'.
Proof.
  intros Hstep. induction k as [|k IH]; intros n queue queue' Hinv; simpl.
  - intros [= <-]. by rewrite Nat.add_0_r.
  - destruct (pair_token codes aon overlap finput queue n) as [q| | |] eqn:Hq;
      try discriminate.
    simpl. intros Hrest. replace (n + S k)%nat with (S n + k)%nat by lia.
    apply (IH (S n) q); [|done]. by eapply Hstep.
Qed.

Lemma pair_token_Next codes aon overlap finput queue n queue' :
  pair_token codes aon overlap finput queue n = Next queue' ->
  mark_token codes overlap queue n = Next queue'
  /\ exists token, queue' !! n = Some token
       /\ (aon = true -> status token <> INVALID).
Proof.
  unfold pair_token.
  destruct (mark_token codes overlap queue n) as [q| | |]; try discriminate.
  simpl. destruct (q !! n) as [token|] eqn:Hn; [|discriminate].
  destruct (aon && bool_decide (status token = INVALID)) eqn:E; [discriminate|].
  intros [= <-]. split; [done|]. exists token. split; [done|].
  intros ->. simpl in E. by apply bool_decide_eq_false in E.
Qed.

(** ** The pairing loop keeps the text of the queue *)

Lemma same_text_refl queue : same_text queue queue.
Proof. split; [done|]. intros i t t' Ht Ht'. by simplify_eq. Qed.

Lemma same_text_trans q0 q1 q2 :
  same_text q0 q1 -> same_text q1 q2 -> same_text q0 q2.
Proof.
  intros [Hl1 H1] [Hl2 H2]. split; [congruence|].
  intros i t0 t2 Ht0 Ht2.
  destruct (lookup_lt_is_Some_2 q1 i) as [t1 Ht1].
  { apply lookup_lt_Some in Ht0. lia. }
  destruct (H1 i t0 t1 Ht0 Ht1) as (Hc1 & Ha1 & Hr1 & Hn1).
  destruct (H2 i t1 t2 Ht1 Ht2) as (Hc2 & Ha2 & Hr2 & Hn2).
  split; [congruence|]. split; [congruence|]. split.
  - intros Hr. rewrite <- (Hr1 Hr). apply Hr2. by rewrite (Hr1 Hr).
  - intros Hn. rewrite <- (Hn1 Hn). apply Hn2. by rewrite (Hn1 Hn).
Qed.

Lemma mark_effect_same_text overlap queue i token queue' :
  queue !! i = Some token ->
  mark_effect overlap queue i token queue' -> same_text queue queue'.
Proof.
  intros Hi [|f Hrej Hty Hf Hst Hft|s t Hrej Hty Hs Hc Hnear].
  - apply same_text_refl.
  - split; [apply length_alter|]. intros j t t' Ht Ht'.
    rewrite list_lookup_alter in Ht'. destruct (decide (i = j)) as [<-|].
    + rewrite Hi in Ht, Ht'. simplify_eq/=. destruct (Hf t) as (? & ? & ?).
      split; [done|]. split; [done|]. split; [done|].
      intros Hcontent. destruct Hty; congruence.
    + simplify_eq. done.
  - destruct Hnear as (Hlt & (t0 & Hs0 & Hstart & Hu & _) & _).
    rewrite Hs in Hs0. injection Hs0 as <-. assert (s <> i) by lia.
    split; [unfold mark_pair; by rewrite !length_alter|].
    intros j tj tj' Htj Htj'.
    destruct (decide (j = i)) as [->|].
    { rewrite (mark_pair_lookup_end s i queue token) in Htj' by done.
      simplify_eq/=. split; [done|]. split; [done|]. split; [done|]. congruence. }
    destruct (decide (j = s)) as [->|].
    { rewrite (mark_pair_lookup_start s i queue t) in Htj' by done.
      simplify_eq/=. split; [done|]. split; [done|].
      split; [intros [?|?]; congruence | congruence]. }
    rewrite mark_pair_lookup_other in Htj' by done. simplify_eq. done.
Qed.

Lemma pair_token_same_text codes aon overlap finput queue n queue' :
  pair_token codes aon overlap finput queue n = Next queue' ->
  same_text queue queue'.
Proof.
  intros H. apply pair_token_Next in H as [H _].
  apply mark_token_effect in H as (token & Hn & Heff).
  by eapply mark_effect_same_text.
Qed.

(** X1. The pairing loop changes types, statuses and matches only: the
    queue keeps its length, every token its content and argument, and
    content tokens and the codes set aside as not implemented or not
    allowed come out as they went in. *)
Theorem pairing_pass_keeps_text codes aon overlap finput queue queue' :
  pairing_pass codes aon overlap finput queue = Next queue' ->
  same_text queue queue'.
Proof.
  intros H.
  apply (pairing_range_ind (fun _ q => same_text queue q) codes aon overlap finput)
    with (k := length queue) (n := 0%nat) (queue := queue); [| |exact H].
  - intros n q q' Hq Hstep. eapply same_text_trans; [exact Hq|].
    by eapply pair_token_same_text.
  - apply same_text_refl.
Qed.

Lemma pairing_pass_keeps_text_witness :
  same_text queue_bold_argument queue_bold_argument_paired.
Proof.
  apply (pairing_pass_keeps_text parser_codes false false "[b=x]hi[/b]").
  vm_compute. reflexivity.
Defined.

(** ** The pairing loop on a queue whose codes are registered *)

Lemma mark_token_registered codes overlap queue i :
  registered_queue codes queue -> (i < length queue)%nat ->
  exists queue', mark_token codes overlap queue i = Next queue'.
Proof.
  intros Hreg Hlt. unfold mark_token.
  destruct (lookup_lt_is_Some_2 queue i Hlt) as [token Hi]. rewrite Hi.
  destruct (bool_decide (status token <> NOIMPLFOUND)) eqn:E1; [|eauto].
  destruct (bool_decide (status token <> NOTALLOWED)) eqn:E2; [|eauto].
  apply bool_decide_eq_true in E1, E2. cbn [andb].
  assert (Hrej : ~ rejected token) by (intros [?|?]; done).
  destruct (Hreg i token Hi Hrej) as [Hstart Hend].
  destruct (ttype token); [eauto| | |eauto].
  - destruct Hstart as [h Hh]; [done|]. unfold getitem. rewrite Hh. simpl.
    destruct (negb (needs_end h)); eauto.
  - destruct Hend as [h Hh]; [done|]. unfold getitem, closed_name in *.
    rewrite Hh. simpl. destruct (negb (needs_end h)); [eauto|].
    destruct (pairing_scan overlap queue (PyStr.slice_from (content token) 1) i)
      as (r & -> & Hr); [lia|].
    simpl. destruct r as [s|]; [|eauto].
    destruct (nearest_before_lookup _ _ _ _ Hr) as (_ & t & -> & _).
    destruct (bool_decide _); eauto.
Qed.

Lemma mark_effect_registered codes overlap queue i token queue' :
  queue !! i = Some token ->
  mark_effect overlap queue i token queue' ->
  registered_queue codes queue -> registered_queue codes queue'.
Proof.
  intros Hi Heff Hreg j t' Hj Hrej'.
  destruct (mark_effect_same_text _ _ _ _ _ Hi Heff) as [Hlen Htext].
  destruct (lookup_lt_is_Some_2 queue j) as [t Ht].
  { apply lookup_lt_Some in Hj. lia. }
  destruct (Htext j t t' Ht Hj) as (Hc & _ & _ & _).
  assert (Hsame : ~ rejected t /\ (ttype t' = ttype t \/ ttype t' = CONTENT)).
  { destruct Heff as [|f Hrej Hty Hf Hst Hft|s ts Hrej Hty Hs Hcs Hnear].
    - simplify_eq. auto.
    - rewrite list_lookup_alter in Hj. destruct (decide (i = j)) as [<-|].
      + rewrite Hi in Hj, Ht. simplify_eq/=. auto.
      + simplify_eq. auto.
    - destruct Hnear as (Hlt & (t0 & Hs0 & Hstart & Hu & _) & _).
      rewrite Hs in Hs0. injection Hs0 as <-. assert (s <> i) by lia.
      destruct (decide (j = i)) as [->|].
      { rewrite (mark_pair_lookup_end s i queue token) in Hj by done.
        simplify_eq/=. auto. }
      destruct (decide (j = s)) as [->|].
      { rewrite (mark_pair_lookup_start s i queue ts) in Hj by done.
        simplify_eq/=. split; [intros [?|?]; congruence | auto]. }
      rewrite mark_pair_lookup_other in Hj by done. simplify_eq. auto. }
  destruct Hsame as [Hrej Hty]. destruct (Hreg j t Ht Hrej) as [Hstart Hend].
  unfold closed_name in *. rewrite Hc.
  split; intros Hty'; destruct Hty as [Hty|Hty]; try congruence.
  - apply Hstart. congruence.
  - apply Hend. congruence.
Qed.

Lemma pairing_range_registered codes aon overlap finput k n queue :
  (n + k <= length queue)%nat -> registered_queue codes queue ->
  (exists queue',
     for_range (pair_token codes aon overlap finput) (seq n k) queue = Next queue')
  \/ (aon = true
      /\ for_range (pair_token codes aon overlap finput) (seq n k) queue
         = Return finput).
Proof.
  revert n queue. induction k as [|k IH]; intros n queue Hlen Hreg; simpl.
  - left. eauto.
  - destruct (mark_token_registered codes overlap queue n Hreg) as [q Hq]; [lia|].
    destruct (mark_token_effect _ _ _ _ _ Hq) as (token & Hn & Heff).
    destruct (mark_effect_same_text _ _ _ _ _ Hn Heff) as [Hlenq _].
    assert (Hstep : pair_token codes aon overlap finput queue n = Next q
                    \/ (aon = true
                        /\ pair_token codes aon overlap finput queue n
                           = Return finput)).
    { unfold pair_token. rewrite Hq. simpl.
      destruct (lookup_lt_is_Some_2 q n) as [token' ->]; [lia|].
      destruct aon; simpl; [|auto].
      destruct (bool_decide (status token' = INVALID)); auto. }
    cbn [seq for_range]. destruct Hstep as [-> | [-> ->]]; simpl; [|by right].
    apply IH; [lia|]. by eapply mark_effect_registered.
Qed.

(** X2. On a queue in which every code that is not set aside has a
    handler, the pairing loop raises nothing: it runs to its end, or,
    under all-or-nothing, returns the input. *)
Theorem pairing_pass_no_exception codes aon overlap finput queue :
  registered_queue codes queue ->
  (exists queue', pairing_pass codes aon overlap finput queue = Next queue')
  \/ (aon = true /\ pairing_pass codes aon overlap finput queue = Return finput).
Proof.
  intros Hreg. by apply pairing_range_registered.
Qed.

Lemma pairing_pass_no_exception_witness :
  (exists queue',
     pairing_pass parser_codes true false "[b]hi[/i]" queue_mismatch = Next queue')
  \/ (true = true
      /\ pairing_pass parser_codes true false "[b]hi[/i]" queue_mismatch
         = Return "[b]hi[/i]").
Proof.
  apply pairing_pass_no_exception.
  intros i t Hi _. destruct i as [|[|[|i]]]; simpl in Hi; simplify_eq;
    split; intros Hty; try discriminate; vm_compute; eauto.
Defined.

(** An unregistered code that was not set aside does raise. *)
Example pairing_unregistered :
  pairing_pass parser_codes false false "[zzz]" [mkToken CODE_START "zzz" None]
  = Raise KeyError.
Proof. vm_compute. reflexivity. Qed.

(** X3. Under all-or-nothing a pairing loop that runs to its end leaves
    no invalid token in a queue that had none. *)
Theorem pairing_pass_all_or_nothing_clean codes overlap finput queue queue' :
  (forall i t, queue !! i = Some t -> status t <> INVALID) ->
  pairing_pass codes true overlap finput queue = Next queue' ->
  forall i t, queue' !! i = Some t -> status t <> INVALID.
Proof.
  intros Hclean Hpass.
  apply (pairing_range_ind
           (fun _ q => forall i t, q !! i = Some t -> status t <> INVALID)
           codes true overlap finput)
    with (k := length queue) (n := 0%nat) (queue := queue); [|done|exact Hpass].
  clear. intros n q q' Hq Hstep j t Hj.
  apply pair_token_Next in Hstep as (Hmark & tn & Hn & Hok).
  apply mark_token_effect in Hmark as (token & Hi & Heff).
  destruct Heff as [|f Hrej Hty Hf Hst Hft|s ts Hrej Hty Hs Hcs Hnear].
  - by apply (Hq j).
  - destruct (decide (j = n)) as [->|]; [simplify_eq; by apply Hok|].
    rewrite list_lookup_alter_ne in Hj by done. by apply (Hq j).
  - destruct Hnear as (Hlt & _). assert (s <> n) by lia.
    destruct (decide (j = n)) as [->|]; [simplify_eq; by apply Hok|].
    destruct (decide (j = s)) as [->|].
    { rewrite (mark_pair_lookup_start s n q ts) in Hj by done. by simplify_eq. }
    rewrite mark_pair_lookup_other in Hj by done. by apply (Hq j).
Qed.

Lemma pairing_pass_all_or_nothing_clean_witness :
  status (with_matches (Some 2%nat)
            (with_status VALID (mkToken CODE_START "b" (Some "x")))) <> INVALID.
Proof.
  apply (pairing_pass_all_or_nothing_clean parser_codes false "[b=x]hi[/b]"
           queue_bold_argument queue_bold_argument_paired) with (i := 0%nat).
  - intros i t Hi. destruct i as [|[|[|i]]]; simpl in Hi; by simplify_eq.
  - vm_compute. reflexivity.
  - reflexivity.
Defined.

(** ** The shape and the nesting of matched pairs *)

Lemma pairing_inv_matched n queue i t m :
  pairing_inv n queue -> queue !! i = Some t -> matches t = Some m ->
  (i < n)%nat /\ (m < n)%nat
  /\ exists t', queue !! m = Some t' /\ matches t' = Some i.
Proof.
  intros (H1 & H2 & H3) Hi Hm.
  destruct (H1 i m t Hi Hm) as (t' & Hm' & Hback & _).
  assert (i < n)%nat.
  { destruct (decide (i < n)%nat); [done|]. rewrite (H3 i t) in Hm; [done|done|lia]. }
  assert (m < n)%nat.
  { destruct (decide (m < n)%nat); [done|].
    rewrite (H3 m t') in Hback; [done|done|lia]. }
  eauto.
Qed.

Lemma mark_effect_shaped overlap n queue token queue' :
  queue !! n = Some token ->
  mark_effect overlap queue n token queue' ->
  pairing_inv n queue -> pairs_shaped queue -> pairs_shaped queue'.
Proof.
  intros Hn Heff Hinv Hshape.
  assert (Hnone : matches token = None).
  { destruct Hinv as (_ & _ & H3). apply (H3 n); [done | lia]. }
  destruct Heff as [|f Hrej Hty Hf Hst Hft|s ts Hrej Hty Hs Hcs Hnear]; [done| |].
  - intros j t' m Hj Hm. rewrite list_lookup_alter in Hj.
    destruct (decide (n = j)) as [<-|Hne].
    { rewrite Hn in Hj. simplify_eq/=. destruct (Hf token) as (_ & _ & Hfm).
      congruence. }
    destruct (pairing_inv_matched _ _ _ _ _ Hinv Hj Hm) as (_ & _ & tm & Htm & Hback).
    assert (n <> m) by (intros <-; congruence).
    destruct (Hshape j t' m Hj Hm) as (tm' & Htm' & Hcase).
    exists tm'. by rewrite list_lookup_alter_ne.
  - destruct Hnear as (Hlt & (t0 & Hs0 & Hstart & Hu & _) & _).
    rewrite Hs in Hs0. injection Hs0 as <-. assert (s <> n) by lia.
    assert (Hsnone : matches ts = None).
    { destruct Hinv as (_ & H2 & _). by apply (H2 s). }
    pose proof (mark_pair_lookup_end s n queue token ltac:(done) Hn) as Hend.
    pose proof (mark_pair_lookup_start s n queue ts ltac:(done) Hs) as Hst.
    intros j t' m Hj Hm.
    destruct (decide (j = n)) as [->|].
    { rewrite Hend in Hj. simplify_eq/=. eexists. split; [exact Hst|].
      right. simpl. unfold closed_name. simpl. auto. }
    destruct (decide (j = s)) as [->|].
    { rewrite Hst in Hj. simplify_eq/=. eexists. split; [exact Hend|].
      left. simpl. unfold closed_name. simpl. auto. }
    rewrite mark_pair_lookup_other in Hj by done.
    destruct (pairing_inv_matched _ _ _ _ _ Hinv Hj Hm) as (_ & _ & tm & Htm & Hback).
    assert (m <> n) by (intros ->; congruence).
    assert (m <> s) by (intros ->; congruence).
    destruct (Hshape j t' m Hj Hm) as (tm' & Htm' & Hcase).
    exists tm'. by rewrite mark_pair_lookup_other.
Qed.

Lemma mark_effect_nesting n queue token queue' :
  queue !! n = Some token ->
  mark_effect false queue n token queue' ->
  pairing_inv n queue -> nesting_inv queue -> nesting_inv queue'.
Proof.
  intros Hn Heff Hinv Hnest.
  assert (Hnone : matches token = None).
  { destruct Hinv as (_ & _ & H3). apply (H3 n); [done | lia]. }
  destruct Heff as [|f Hrej Hty Hf Hst Hft|s ts Hrej Hty Hs Hcs Hnear]; [done| |].
  - intros s0 i0 ts0 Hs0 Hty0 Hm0 k tk Hk Htk Htyk.
    rewrite list_lookup_alter in Hs0. destruct (decide (n = s0)) as [<-|Hne].
    { rewrite Hn in Hs0. simplify_eq/=. destruct (Hf token) as (_ & _ & Hfm).
      congruence. }
    destruct (pairing_inv_matched _ _ _ _ _ Hinv Hs0 Hm0) as (? & ? & _).
    rewrite list_lookup_alter_ne in Htk by lia.
    by apply (Hnest s0 i0 ts0 Hs0 Hty0 Hm0 k tk).
  - destruct Hnear as (Hlt & (t0 & Hs0' & Hstart & Hu & _) & Hbetween).
    rewrite Hs in Hs0'. injection Hs0' as <-. assert (s <> n) by lia.
    assert (Hsnone : matches ts = None).
    { destruct Hinv as (_ & H2 & _). by apply (H2 s). }
    pose proof (mark_pair_lookup_end s n queue token ltac:(done) Hn) as Hend.
    pose proof (mark_pair_lookup_start s n queue ts ltac:(done) Hs) as Hst.
    intros s0 i0 ts0 Hs0 Hty0 Hm0 k tk Hk Htk Htyk.
    destruct (decide (s0 = n)) as [->|].
    { rewrite Hend in Hs0. simplify_eq/=. congruence. }
    destruct (decide (s0 = s)) as [->|].
    { rewrite Hst in Hs0. simplify_eq/=.
      rewrite mark_pair_lookup_other in Htk by lia. split.
      - intros Hund. apply (Hbetween k tk); [lia | done |]. done.
      - intros m Hm.
        by destruct (pairing_inv_matched _ _ _ _ _ Hinv Htk Hm) as (_ & ? & _). }
    rewrite mark_pair_lookup_other in Hs0 by done.
    destruct (pairing_inv_matched _ _ _ _ _ Hinv Hs0 Hm0) as (? & ? & _).
    destruct (decide (k = s)) as [->|].
    { destruct (Hnest s0 i0 ts0 Hs0 Hty0 Hm0 s ts) as [Hbad _]; done. }
    rewrite mark_pair_lookup_other in Htk by lia.
    by apply (Hnest s0 i0 ts0 Hs0 Hty0 Hm0 k tk).
Qed.

Lemma pairing_pass_invariants codes aon overlap finput queue queue' :
  unmatched_queue queue ->
  pairing_pass codes aon overlap finput queue = Next queue' ->
  pairs_shaped queue' /\ (overlap = false -> nesting_inv queue').
Proof.
  intros Hq Hpass.
  cut (pairing_inv (0 + length queue) queue' /\ pairs_shaped queue'
       /\ (overlap = false -> nesting_inv queue')); [tauto|].
  apply (pairing_range_ind
           (fun n q => pairing_inv n q /\ pairs_shaped q
                       /\ (overlap = false -> nesting_inv q))
           codes aon overlap finput)
    with (queue := queue); [| |exact Hpass].
  - clear. intros n q q' (Hinv & Hshape & Hnest) Hstep.
    apply pair_token_Next in Hstep as (Hmark & _).
    split; [by eapply mark_token_inv|].
    apply mark_token_effect in Hmark as (token & Hn & Heff).
    split; [by eapply mark_effect_shaped|].
    intros ->. eapply mark_effect_nesting; eauto.
  - split; [by apply pairing_inv_start|]. split.
    + intros i t m Hi Hm. rewrite (Hq i t Hi) in Hm. discriminate.
    + intros _ s i ts Hs _ Hm. rewrite (Hq s ts Hs) in Hm. discriminate.
Qed.

(** X5. After the pairing loop, run on a queue without matches, every
    match joins a start code with a later end code of the same name. *)
Theorem pairing_pass_pairs_shaped codes aon overlap finput queue queue' :
  unmatched_queue queue ->
  pairing_pass codes aon overlap finput queue = Next queue' ->
  pairs_shaped queue'.
Proof. intros Hq Hpass. by eapply pairing_pass_invariants. Qed.

Lemma pairing_pass_pairs_shaped_witness : pairs_shaped queue_crossing_paired.
Proof.
  apply (pairing_pass_pairs_shaped parser_codes false true "[b][i][/b][/i]"
           queue_crossing).
  - intros i t Hi. destruct i as [|[|[|[|i]]]]; simpl in Hi; by simplify_eq.
  - vm_compute. reflexivity.
Defined.

(** X6. Without the handling of overlapping codes the matched pairs never
    cross: a start code that lies inside a matched pair is closed inside
    it. *)
Theorem pairing_pass_well_nested codes aon finput queue queue' :
  unmatched_queue queue ->
  pairing_pass codes aon false finput queue = Next queue' ->
  well_nested queue'.
Proof.
  intros Hq Hpass.
  destruct (pairing_pass_invariants _ _ _ _ _ _ Hq Hpass) as [_ Hnest].
  specialize (Hnest eq_refl).
  intros a b c d ta tc Ha Htya Hma Hc Htyc Hmc Hacb.
  destruct (Hnest a b ta Ha Htya Hma c tc Hacb Hc Htyc) as [_ Hin]. by apply Hin.
Qed.

Lemma pairing_pass_well_nested_witness : well_nested queue_nested_paired.
Proof.
  apply (pairing_pass_well_nested parser_codes true "[b][i][/i][/b]" queue_nested).
  - intros i t Hi. destruct i as [|[|[|[|i]]]]; simpl in Hi; by simplify_eq.
  - vm_compute. reflexivity.
Defined.

(** With the handling of overlapping codes the pairs of [b][i][/b][/i]
    do cross; without it the loop matches [i] only. *)
Example pairing_crossing :
  pairing_pass parser_codes false true "[b][i][/b][/i]" queue_crossing
    = Next queue_crossing_paired
  /\ ~ well_nested queue_crossing_paired
  /\ pairing_pass parser_codes false false "[b][i][/b][/i]" queue_crossing
     = Next [mkToken CODE_START "b" None;
             with_matches (Some 3%nat)
               (with_status VALID (mkToken CODE_START "i" None));
             with_status INVALID (mkToken CODE_END "/b" None);
             with_matches (Some 1%nat)
               (with_status VALID (mkToken CODE_END "/i" None))].
Proof.
  split; [vm_compute; reflexivity|]. split; [|vm_compute; reflexivity].
  intros Hwn.
  specialize (Hwn 0%nat 2%nat 1%nat 3%nat _ _ eq_refl eq_refl eq_refl
                eq_refl eq_refl eq_refl ltac:(lia)).
  lia.
Qed.

(** ** The final loop, round by round *)

Lemma str_app_nil_r s : s +:+ "" = s.
Proof.
  induction s as [|a s IH]; [done|].
  change (String a (s +:+ "") = String a s). by rewrite IH.
Qed.

Lemma str_app_assoc a b c : (a +:+ b) +:+ c = a +:+ (b +:+ c).
Proof.
  induction a as [|x a IH]; [done|].
  change (String x ((a +:+ b) +:+ c) = String x (a +:+ (b +:+ c))). by rewrite IH.
Qed.

Lemma invalidated_status (queue : list Token) (i m : nat) (t : Token) :
  queue !! i = Some t ->
  exists t', alter (with_status INVALID) m (alter (with_status INVALID) i queue) !! i
             = Some t' /\ status t' = INVALID.
Proof.
  intros Hi. rewrite list_lookup_alter. destruct (decide (m = i)) as [->|].
  - rewrite list_lookup_alter_eq, Hi. simpl. eauto.
  - rewrite list_lookup_alter_eq, Hi. simpl. eauto.
Qed.

(** A round of the final loop that goes on to the next round has left the
    queue alone and, on a code, has called its handler. *)
Lemma render_token_Next sett codes aon overlap esc finput queue stack output i
    queue' stack' output' :
  render_token sett codes aon overlap esc finput (queue, stack, output) i
    = Next (queue', stack', output') ->
  queue' = queue /\ exists token, queue !! i = Some token /\
    match ttype token with
    | CODE_START =>
        status token = VALID /\ exists h, codes !! content token = Some h
          /\ output' = output +:+ open h sett (argument token) None
    | CODE_END =>
        status token = VALID /\ overlap = false
        /\ exists h, codes !! closed_name token = Some h
             /\ output' = output +:+ close h sett (argument token) None
    | _ => True
    end.
Proof.
  unfold render_token.
  destruct (queue !! i) as [token|] eqn:Hi; [|discriminate].
  destruct (ttype token) eqn:Hty.
  - intros [= <- _ _]. split; [done|]. exists token. by rewrite Hty.
  - destruct (validate_start sett codes aon finput queue i) as [q| | |] eqn:Hv;
      try discriminate.
    simpl. apply validate_start_queue in Hv as [->|(t & m & Hi' & Hm & ->)].
    + rewrite Hi. destruct (bool_decide (status token = VALID)) eqn:Est.
      * apply bool_decide_eq_true in Est. unfold getitem.
        destruct (codes !! content token) as [h|] eqn:Hh; [|discriminate].
        simpl. intros [= <- _ <-]. split; [done|]. exists token.
        rewrite Hty. eauto.
      * by destruct (argument token).
    + destruct (invalidated_status queue i m t Hi') as (t' & -> & Hinv).
      rewrite bool_decide_eq_false_2 by congruence. by destruct (argument t').
  - destruct (bool_decide (status token = VALID)) eqn:Est; [|discriminate].
    apply bool_decide_eq_true in Est.
    destruct overlap; [discriminate|]. unfold getitem, closed_name.
    destruct (codes !! PyStr.slice_from (content token) 1) as [h|] eqn:Hh;
      [|discriminate].
    simpl. intros [= <- _ <-]. split; [done|]. exists token. rewrite Hty. eauto 10.
  - unfold mbind, flow_bind, getitem. intros H.
    assert (queue' = queue) as ->.
    { repeat (case_match; simplify_eq/=; try done). }
    split; [done|]. exists token. by rewrite Hty.
Qed.

Lemma render_range_Next sett codes aon overlap esc finput k n queue stack output
    queue' stack' output' :
  for_range (render_token sett codes aon overlap esc finput) (seq n k)
    (queue, stack, output) = Next (queue', stack', output') ->
  queue' = queue /\ forall i t, (n <= i < n + k)%nat -> queue !! i = Some t ->
    (ttype t = CODE_START \/ ttype t = CODE_END -> status t = VALID)
    /\ (overlap = true -> ttype t <> CODE_END).
Proof.
  revert n stack output.
  induction k as [|k IH]; intros n stack output; cbn [seq for_range].
  - intros [= <- _ _]. split; [done|]. intros i t Hi. lia.
  - destruct (render_token sett codes aon overlap esc finput (queue, stack, output) n)
      as [[[q1 st1] out1]| | |] eqn:Hstep; try discriminate.
    apply render_token_Next in Hstep as (-> & token & Hn & Hcase).
    cbn [mbind flow_bind]. intros Hrest. apply IH in Hrest as [-> Hall]. split; [done|].
    intros i t Hi Ht.
    destruct (decide (i = n)) as [->|]; [|apply (Hall i); [lia|done]].
    rewrite Hn in Ht. injection Ht as <-. destruct (ttype token).
    + split; [intros [?|?]; done | done].
    + destruct Hcase as [Hst _]. split; [done | done].
    + destruct Hcase as (Hst & -> & _). split; [done | done].
    + split; [intros [?|?]; done | done].
Qed.

(** X7. The final loop runs to its end only on a queue in which every
    start code and every end code is valid, and then leaves the queue as
    it was; with the handling of overlapping codes there must not even be
    an end code. *)
Theorem render_pass_only_valid sett codes aon overlap esc finput queue
    queue' stack output :
  render_pass sett codes aon overlap esc finput queue = Next (queue', stack, output) ->
  queue' = queue
  /\ forall i t, queue !! i = Some t ->
       (ttype t = CODE_START \/ ttype t = CODE_END -> status t = VALID)
       /\ (overlap = true -> ttype t <> CODE_END).
Proof.
  intros H. apply render_range_Next in H as [-> Hall]. split; [done|].
  intros i t Ht. apply (Hall i); [|done]. apply lookup_lt_Some in Ht. lia.
Qed.

Lemma render_pass_only_valid_witness :
  queue_after_bold_paired = queue_after_bold_paired
  /\ forall i t, queue_after_bold_paired !! i = Some t ->
       (ttype t = CODE_START \/ ttype t = CODE_END -> status t = VALID)
       /\ (false = true -> ttype t <> CODE_END).
Proof.
  apply (render_pass_only_valid default_settings parser_codes true false true
           "[b]x[/b]<" queue_after_bold_paired queue_after_bold_paired []
           "<b>x</b>&lt;").
  vm_compute. reflexivity.
Defined.

(** ** The scan for the parent of a start code *)

Lemma _find_parent_start_code_from_spec queue position n :
  (n <= length queue)%nat ->
  exists r, nearest_before (parent_candidate position) queue n r
    /\ _find_parent_start_code_from queue position n =
       match r with
       | None => Next None
       | Some k =>
           match queue !! k with
           | Some t => match matches t with
                       | Some _ => Next (Some k)
                       | None => Raise TypeError
                       end
           | None => Raise IndexError
           end
       end.
Proof.
  induction n as [|n IH]; intros Hlen; cbn [_find_parent_start_code_from].
  - exists None. split; [|done]. intros j t Hj. lia.
  - destruct (lookup_lt_is_Some_2 queue n) as [t Ht]; [lia|]. rewrite Ht.
    destruct IH as (r & Hnear & Hr); [lia|].
    destruct (bool_decide (ttype t = CODE_START)) eqn:E1;
      [destruct (bool_decide (status t = VALID)) eqn:E2|]; cbn [andb].
    + apply bool_decide_eq_true in E1, E2.
      destruct (matches t) as [m|] eqn:Hm.
      * destruct (position <? m)%nat eqn:Elt.
        -- apply Nat.ltb_lt in Elt. exists (Some n). split.
           ++ eapply nearest_before_here; [done|]. unfold parent_candidate. eauto 10.
           ++ by rewrite Ht, Hm.
        -- apply Nat.ltb_ge in Elt. exists r. split; [|done].
           apply nearest_before_skip; [|done]. intros t' Ht' (_ & _ & [Hn|(m' & Hm' & ?)]).
           ++ congruence.
           ++ assert (m' = m) by congruence. lia.
      * exists (Some n). split.
        -- eapply nearest_before_here; [done|]. unfold parent_candidate. auto.
        -- by rewrite Ht, Hm.
    + apply bool_decide_eq_false in E2. exists r. split; [|done].
      apply nearest_before_skip; [|done]. intros t' Ht' (_ & ? & _). congruence.
    + apply bool_decide_eq_false in E1. exists r. split; [|done].
      apply nearest_before_skip; [|done]. intros t' Ht' (? & _). congruence.
Qed.

(** X18. [_find_parent_start_code] stops at the nearest earlier valid
    start code that either has no match or is matched beyond the position:
    it returns the index of the second kind, raises [TypeError] on the
    first kind, and returns -1 when there is neither. *)
Theorem _find_parent_start_code_spec queue position :
  (position <= length queue)%nat ->
  exists r, nearest_before (parent_candidate position) queue position r
    /\ _find_parent_start_code queue position =
       match r with
       | None => Next None
       | Some k =>
           match queue !! k with
           | Some t => match matches t with
                       | Some _ => Next (Some k)
                       | None => Raise TypeError
                       end
           | None => Raise IndexError
           end
       end.
Proof. apply _find_parent_start_code_from_spec. Qed.

Lemma _find_parent_start_code_spec_witness :
  exists r, nearest_before (parent_candidate 1) queue_after_bold_paired 1 r
    /\ _find_parent_start_code queue_after_bold_paired 1 =
       match r with
       | None => Next None
       | Some k =>
           match queue_after_bold_paired !! k with
           | Some t => match matches t with
                       | Some _ => Next (Some k)
                       | None => Raise TypeError
                       end
           | None => Raise IndexError
           end
       end.
Proof. apply _find_parent_start_code_spec. simpl. lia. Defined.

(** A valid start code that needs no end has no match: the scan raises on
    the content that follows it. *)
Example parent_scan_self_contained :
  _find_parent_start_code
    [with_status VALID (mkToken CODE_START "GLOBAL" None);
     mkToken CODE_START "b" None] 1 = Raise TypeError.
Proof. reflexivity. Qed.

Lemma _find_parent_start_code_outcome queue position :
  (position <= length queue)%nat ->
  (exists r, _find_parent_start_code queue position = Next r)
  \/ _find_parent_start_code queue position = Raise TypeError.
Proof.
  intros Hlen.
  unfold _find_parent_start_code.
  destruct (_find_parent_start_code_from_spec queue position position Hlen)
    as (r & Hnear & ->).
  destruct r as [k|]; [|eauto].
  destruct Hnear as (_ & (t & -> & _) & _). destruct (matches t); eauto.
Qed.

(** X9. A start code that needs an end and was left undetermined, the
    code that was never closed, makes its round of the final loop raise
    [TypeError], with or without all-or-nothing. *)
Theorem render_unclosed_start sett codes aon overlap esc finput queue stack output
    i token h :
  queue !! i = Some token ->
  ttype token = CODE_START -> status token = UNDETERMINED ->
  matches token = None ->
  codes !! content token = Some h -> needs_end h = true ->
  render_token sett codes aon overlap esc finput (queue, stack, output) i
    = Raise TypeError.
Proof.
  intros Hi Hty Hst Hm Hh Hneeds. unfold render_token, validate_start.
  rewrite Hi, Hty, Hst. simpl.
  destruct (_find_parent_start_code_outcome queue i) as [[r ->] | ->];
    [apply lookup_lt_Some in Hi; lia | | done].
  simpl. unfold getitem. rewrite Hh. simpl. rewrite Hneeds. simpl.
  by rewrite Hm.
Qed.

Lemma render_unclosed_start_witness :
  render_token default_settings parser_codes true false true "[b]hi"
    (queue_unclosed, [], "") 0 = Raise TypeError.
Proof.
  apply (render_unclosed_start _ _ _ _ _ _ _ _ _ 0 (mkToken CODE_START "b" None)
           HTMLBoldBBCode); try reflexivity.
Defined.

(** ** Queues of content *)

Lemma scan_content_only queue st i :
  (forall j t, queue !! j = Some t -> ttype t = CONTENT) ->
  (i <= length queue)%nat ->
  _find_start_code_with_status queue st i = Next None.
Proof.
  intros Hcontent Hlen.
  destruct (_find_start_code_with_status_spec queue st i Hlen) as (r & -> & Hnear).
  destruct r as [s|]; [|done].
  destruct Hnear as (_ & (t & Ht & Hstart & _) & _).
  rewrite (Hcontent s t Ht) in Hstart. discriminate.
Qed.

Lemma render_range_content sett codes aon overlap esc finput g queue stack :
  (forall j t, queue !! j = Some t -> ttype t = CONTENT) ->
  codes !! "GLOBAL" = Some g ->
  forall k n output, (n + k <= length queue)%nat ->
    for_range (render_token sett codes aon overlap esc finput) (seq n k)
      (queue, stack, output)
    = Next (queue, stack,
            output +:+ foldr (fun t acc =>
                                (if esc then escape g sett (content t)
                                 else content t) +:+ acc)
                         "" (take k (drop n queue))).
Proof.
  intros Hcontent Hg. induction k as [|k IH]; intros n output Hlen;
    cbn [seq for_range].
  - rewrite take_0. simpl. by rewrite str_app_nil_r.
  - destruct (lookup_lt_is_Some_2 queue n) as [t Ht]; [lia|].
    assert (Hstep : render_token sett codes aon overlap esc finput
                      (queue, stack, output) n
                    = Next (queue, stack,
                            output +:+ (if esc then escape g sett (content t)
                                        else content t))).
    { unfold render_token. rewrite Ht, (Hcontent n t Ht).
      rewrite scan_content_only by (done || lia). simpl.
      destruct esc; simpl; [|done]. unfold getitem. by rewrite Hg. }
    rewrite Hstep. cbn [mbind flow_bind]. rewrite IH by lia.
    rewrite (drop_S queue t n Ht). cbn [take foldr]. by rewrite str_app_assoc.
Qed.

(** X8. A queue of content tokens alone is printed token by token: the
    output joins the texts in order, each passed through the GLOBAL
    handler's escape when content escaping is on. *)
Theorem render_pass_content sett codes aon overlap esc finput g queue :
  (forall j t, queue !! j = Some t -> ttype t = CONTENT) ->
  codes !! "GLOBAL" = Some g ->
  render_pass sett codes aon overlap esc finput queue
  = Next (queue, [],
          foldr (fun t acc =>
                   (if esc then escape g sett (content t) else content t) +:+ acc)
            "" queue).
Proof.
  intros Hcontent Hg. unfold render_pass.
  rewrite (render_range_content sett codes aon overlap esc finput g queue []
             Hcontent Hg (length queue) 0 "") by (simpl; lia).
  by rewrite drop_0, firstn_all.
Qed.

Lemma render_pass_content_witness :
  render_pass default_settings example_codes true false true "a<b"
    [mkToken CONTENT "a" None; mkToken CONTENT "<b" None]
  = Next ([mkToken CONTENT "a" None; mkToken CONTENT "<b" None], [],
          foldr (fun t acc =>
                   (if true then escape HTMLGlobalBBCode default_settings (content t)
                    else content t) +:+ acc)
            "" [mkToken CONTENT "a" None; mkToken CONTENT "<b" None]).
Proof.
  apply render_pass_content.
  - intros j t Hj. destruct j as [|[|j]]; simpl in Hj; by simplify_eq.
  - vm_compute. reflexivity.
Defined.

(** ** The alignment handlers in the final loop *)

(** X10. In the final loop a start code or an end code handled by
    [HTMLLeftBBCode], [HTMLCenterBBCode] or [HTMLRightBBCode] adds nothing
    to the output: the loop never passes a closing code, and without one
    these handlers print the empty string. *)
Theorem render_alignment_silent sett codes aon overlap esc finput queue stack output
    i token queue' stack' output' :
  queue !! i = Some token ->
  (ttype token = CODE_START
   /\ (codes !! content token = Some HTMLLeftBBCode
       \/ codes !! content token = Some HTMLCenterBBCode
       \/ codes !! content token = Some HTMLRightBBCode))
  \/ (ttype token = CODE_END
      /\ (codes !! closed_name token = Some HTMLLeftBBCode
          \/ codes !! closed_name token = Some HTMLCenterBBCode
          \/ codes !! closed_name token = Some HTMLRightBBCode)) ->
  render_token sett codes aon overlap esc finput (queue, stack, output) i
    = Next (queue', stack', output') ->
  output' = output.
Proof.
  intros Hi Hcase Hstep.
  apply render_token_Next in Hstep as (_ & token' & Hi' & Hout).
  rewrite Hi in Hi'. injection Hi' as <-.
  destruct Hcase as [[Hty Hh] | [Hty Hh]]; rewrite Hty in Hout.
  - destruct Hout as (_ & h & Hh' & ->).
    destruct Hh as [Hh|[Hh|Hh]]; rewrite Hh in Hh'; injection Hh' as <-;
      simpl; apply str_app_nil_r.
  - destruct Hout as (_ & _ & h & Hh' & ->).
    destruct Hh as [Hh|[Hh|Hh]]; rewrite Hh in Hh'; injection Hh' as <-;
      simpl; apply str_app_nil_r.
Qed.

Lemma render_alignment_silent_witness : "x" = "x".
Proof.
  apply (render_alignment_silent default_settings
           (<["center" := HTMLCenterBBCode]> parser_codes) false false true
           "[center]x[/center]"
           [with_matches (Some 2%nat)
              (with_status VALID (mkToken CODE_START "center" None));
            mkToken CONTENT "x" None;
            with_matches (Some 0%nat)
              (with_status VALID (mkToken CODE_END "/center" None))]
           [] "x" 2
           (with_matches (Some 0%nat)
              (with_status VALID (mkToken CODE_END "/center" None)))
           [with_matches (Some 2%nat)
              (with_status VALID (mkToken CODE_START "center" None));
            mkToken CONTENT "x" None;
            with_matches (Some 0%nat)
              (with_status VALID (mkToken CODE_END "/center" None))]
           [] "x").
  - reflexivity.
  - right. split; [reflexivity|]. right. left. vm_compute. reflexivity.
  - vm_compute. reflexivity.
Defined.

(** The whole of [center]x[/center] is printed as its content. *)
Example render_center :
  replace_queue default_settings (<["center" := HTMLCenterBBCode]> parser_codes)
    true false true "[center]x[/center]"
    [mkToken CODE_START "center" None; mkToken CONTENT "x" None;
     mkToken CODE_END "/center" None]
  = Next "x".
Proof. vm_compute. reflexivity. Qed.

(** ** Early returns *)

Lemma _find_start_code_with_status_no_return queue st i s :
  _find_start_code_with_status queue st i <> Return s.
Proof.
  induction i as [|i IH]; cbn [_find_start_code_with_status]; [done|].
  destruct (queue !! i) as [t|]; [|done]. by destruct (_ && _).
Qed.

Lemma _find_start_code_of_type_no_return queue c i s :
  _find_start_code_of_type queue c i <> Return s.
Proof.
  induction i as [|i IH]; cbn [_find_start_code_of_type]; [done|].
  destruct (queue !! i) as [t|]; [|done]. by destruct (_ && _ && _).
Qed.

Lemma _find_parent_start_code_no_return queue position s :
  _find_parent_start_code queue position <> Return s.
Proof.
  unfold _find_parent_start_code. generalize position at 2. intros n.
  induction n as [|n IH]; cbn [_find_parent_start_code_from]; [done|].
  destruct (queue !! n) as [t|]; [|done].
  destruct (_ && _); [|done]. destruct (matches t); [|done].
  by destruct (_ <? _)%nat.
Qed.

Lemma for_range_Return {S : Type} (body : S -> nat -> flow S) indices st s :
  for_range body indices st = Return s ->
  exists st' i, body st' i = Return s.
Proof.
  revert st. induction indices as [|i indices IH]; intros st; simpl; [done|].
  destruct (body st i) as [st'| | |] eqn:Hb; simpl; try done.
  - apply IH.
  - intros [= <-]. eauto.
Qed.

Lemma pair_token_Return codes aon overlap finput queue i s :
  pair_token codes aon overlap finput queue i = Return s ->
  aon = true /\ s = finput.
Proof.
  unfold pair_token, mark_token, getitem, mbind, flow_bind. intros H.
  pose proof (_find_start_code_with_status_no_return queue UNDETERMINED i).
  pose proof (_find_start_code_of_type_no_return queue) as Hty.
  destruct aon; [split; [done|] | exfalso];
    repeat (case_match; simplify_eq/=; try done);
    exfalso; first [by eapply Hty | by eapply H0].
Qed.

Lemma validate_start_Return sett codes aon finput queue i s :
  validate_start sett codes aon finput queue i = Return s ->
  aon = true /\ s = finput.
Proof.
  unfold validate_start, getitem, mbind, flow_bind. intros H.
  pose proof (_find_parent_start_code_no_return queue i) as Hp.
  destruct aon; [split; [done|] | exfalso];
    repeat (case_match; simplify_eq/=; try done); exfalso; by eapply Hp.
Qed.

Lemma render_token_Return sett codes aon overlap esc finput st i s :
  render_token sett codes aon overlap esc finput st i = Return s ->
  aon = true /\ s = finput.
Proof.
  destruct st as [[queue stack] output]. unfold render_token. intros H.
  destruct (queue !! i) as [token|]; [|discriminate].
  pose proof (_find_start_code_with_status_no_return queue VALID i) as Hs.
  destruct (ttype token).
  - discriminate.
  - destruct (validate_start sett codes aon finput queue i) as [q| | |] eqn:Hv;
      try discriminate.
    + unfold getitem, mbind, flow_bind in H.
      repeat (case_match; simplify_eq/=; try done).
    + simpl in H. injection H as <-. by eapply validate_start_Return.
  - unfold getitem, mbind, flow_bind in H.
    repeat (case_match; simplify_eq/=; try done).
  - unfold getitem, mbind, flow_bind in H.
    repeat (case_match; simplify_eq/=; try done); exfalso; by eapply Hs.
Qed.

(** X4. The two loops over the queue return early only under
    all-or-nothing, and what they return then is the input itself. *)
Theorem replace_queue_early_return sett codes aon overlap esc finput queue s :
  replace_queue sett codes aon overlap esc finput queue = Return s ->
  aon = true /\ s = finput.
Proof.
  unfold replace_queue, pairing_pass, render_pass.
  destruct (for_range (pair_token codes aon overlap finput) _ queue)
    as [q| | |] eqn:Hpair; simpl; try discriminate.
  - destruct (for_range (render_token sett codes aon overlap esc finput) _ _)
      as [[[q' st] out]| | |] eqn:Hrender; simpl; try discriminate.
    intros [= <-]. apply for_range_Return in Hrender as (st' & i & Hstep).
    by eapply render_token_Return.
  - intros [= <-]. apply for_range_Return in Hpair as (st' & i & Hstep).
    by eapply pair_token_Return.
Qed.

Lemma replace_queue_early_return_witness :
  true = true /\ "[b]hi[/i]" = "[b]hi[/i]".
Proof.
  apply (replace_queue_early_return default_settings parser_codes true false true
           "[b]hi[/i]" queue_mismatch).
  vm_compute. reflexivity.
Defined.

(** ** The constructor, further *)

Lemma __init___unfold default_codes o :
  __init__ default_codes o =
  settings ← match o_settings o with
             | Some items => copy_settings items default_settings
             | None => Next default_settings
             end;
  if is_valid_key (effective_codes default_codes o) "GLOBAL"
  then Next {|
    bb_codes := <["GLOBAL" := DefaultGlobalBBCode]> (effective_codes default_codes o);
    bb_code_count := size (effective_codes default_codes o);
    allowed_codes :=
      match o_allowed_codes o with
      | Some l => l
      | None => (map_to_list (<["GLOBAL" := DefaultGlobalBBCode]>
                                (effective_codes default_codes o))).*1
      end;
    settings := settings;
    all_or_nothing := default true (o_all_or_nothing o);
    handle_overlapping_codes := default false (o_handle_overlapping_codes o);
    escape_content_output := default true (o_escape_content_output o);
    code_start_symbol := default "[" (o_code_start_symbol o);
    code_end_symbol := default "]" (o_code_end_symbol o) |}
  else Raise KeyError.
Proof.
  unfold __init__, effective_codes.
  destruct (match o_settings o with
            | Some items => copy_settings items default_settings
            | None => Next default_settings
            end) as [sett| | |]; simpl; try done.
  destruct (is_valid_key _ "GLOBAL") eqn:Hg; simpl; [done|].
  unfold getitem. apply bool_decide_eq_false in Hg.
  destruct (_ !! "GLOBAL") eqn:E; [destruct Hg; eauto | done].
Qed.

(** X12. Whatever handler is registered under GLOBAL, by default or by
    the options, a constructed parser holds [DefaultGlobalBBCode] in its
    place; every other registration is kept, and the count of codes is
    that of the registry before the replacement. *)
Theorem __init___replaces_global default_codes o p :
  __init__ default_codes o = Next p ->
  is_Some (effective_codes default_codes o !! "GLOBAL")
  /\ bb_codes p = <["GLOBAL" := DefaultGlobalBBCode]> (effective_codes default_codes o)
  /\ bb_code_count p = size (effective_codes default_codes o).
Proof.
  rewrite __init___unfold.
  destruct (match o_settings o with
            | Some items => copy_settings items default_settings
            | None => Next default_settings
            end) as [sett| | |]; simpl; try done.
  destruct (is_valid_key _ "GLOBAL") eqn:Hg; [|done].
  apply bool_decide_eq_true in Hg. intros [= <-]. done.
Qed.

Lemma __init___replaces_global_witness :
  is_Some (effective_codes ∅ example_options !! "GLOBAL")
  /\ bb_codes example_parser
     = <["GLOBAL" := DefaultGlobalBBCode]> (effective_codes ∅ example_options)
  /\ bb_code_count example_parser = size (effective_codes ∅ example_options).
Proof.
  apply (__init___replaces_global ∅ example_options example_parser).
  vm_compute. reflexivity.
Defined.

(** X13. When no settings are passed, the constructor raises [KeyError]
    exactly when no handler is registered under GLOBAL: the default GLOBAL
    handler is not supplied for a registry that lacks one. *)
Theorem __init___key_error default_codes o :
  o_settings o = None ->
  __init__ default_codes o = Raise KeyError
  <-> effective_codes default_codes o !! "GLOBAL" = None.
Proof.
  intros Hs. rewrite __init___unfold, Hs. simpl.
  unfold is_valid_key. destruct (effective_codes default_codes o !! "GLOBAL") eqn:E.
  - rewrite bool_decide_eq_true_2 by eauto. split; discriminate.
  - rewrite bool_decide_eq_false_2 by (intros [? ?]; done). done.
Qed.

Lemma __init___key_error_witness :
  __init__ (<["b" := HTMLBoldBBCode]> ∅) no_options = Raise KeyError
  <-> effective_codes (<["b" := HTMLBoldBBCode]> ∅) no_options !! "GLOBAL" = None.
Proof. apply __init___key_error. reflexivity. Defined.

Lemma copy_settings_type_error items acc :
  Exists (fun kv => forall s, kv.2 <> PyStr s) items ->
  copy_settings items acc = Raise TypeError.
Proof.
  revert acc. induction items as [|[k v] items IH]; intros acc Hex.
  - by apply Exists_nil in Hex.
  - apply Exists_cons in Hex as [Hv|Hex]; simpl in *.
    + destruct v; try done. by destruct (Hv s).
    + destruct v; try done. by apply IH.
Qed.

(** X14. A settings override whose value is not a string makes the
    constructor raise [TypeError]: the values are copied with
    [value + '']. *)
Theorem __init___settings_type_error default_codes o items :
  o_settings o = Some items ->
  Exists (fun kv => forall s, kv.2 <> PyStr s) items ->
  __init__ default_codes o = Raise TypeError.
Proof.
  intros Hs Hex. rewrite __init___unfold, Hs.
  by rewrite copy_settings_type_error.
Qed.

(** The settings of the docstring, [LinkColor: 'green', CustomSetting1: 3]. *)
Lemma __init___settings_type_error_witness :
  __init__ example_codes
    {| o_all_or_nothing := None; o_handle_overlapping_codes := None;
       o_escape_content_output := None; o_code_start_symbol := None;
       o_code_end_symbol := None;
       o_settings := Some [("LinkColor", PyStr "green");
                           ("CustomSetting1", PyInt 3)];
       o_codes := None; o_replaceDefaults := None; o_allowed_codes := None |}
  = Raise TypeError.
Proof.
  apply (__init___settings_type_error _ _
           [("LinkColor", PyStr "green"); ("CustomSetting1", PyInt 3)]).
  - reflexivity.
  - apply Exists_cons. right. apply Exists_cons. left. done.
Defined.

(** X15. Without an [allowed_codes] option the allowed codes are the
    names of the registry, GLOBAL among them. *)
Theorem __init___default_allowed default_codes o p :
  o_allowed_codes o = None ->
  __init__ default_codes o = Next p ->
  "GLOBAL" ∈ allowed_codes p
  /\ forall name, name ∈ allowed_codes p <-> is_Some (bb_codes p !! name).
Proof.
  intros Ha. rewrite __init___unfold.
  destruct (match o_settings o with
            | Some items => copy_settings items default_settings
            | None => Next default_settings
            end) as [sett| | |]; simpl; try done.
  destruct (is_valid_key _ "GLOBAL"); [|done]. intros [= <-]. simpl. rewrite Ha.
  assert (Hall : forall name,
            name ∈ (map_to_list (<["GLOBAL" := DefaultGlobalBBCode]>
                                   (effective_codes default_codes o))).*1
            <-> is_Some (<["GLOBAL" := DefaultGlobalBBCode]>
                           (effective_codes default_codes o) !! name)).
  { intros name. rewrite list_elem_of_fmap. split.
    - intros ([k v] & -> & Hin). apply elem_of_map_to_list in Hin. simpl. eauto.
    - intros [v Hv]. exists (name, v). split; [done|]. by apply elem_of_map_to_list. }
  split; [|done]. apply Hall. rewrite lookup_insert_eq. eauto.
Qed.

Lemma __init___default_allowed_witness :
  "GLOBAL" ∈ allowed_codes example_parser
  /\ forall name, name ∈ allowed_codes example_parser
                  <-> is_Some (bb_codes example_parser !! name).
Proof.
  apply (__init___default_allowed ∅ example_options).
  - reflexivity.
  - vm_compute. reflexivity.
Defined.

(** ** [_array_remove] and the scans *)

(** X16. [_array_remove(stack, match, True)] comes back in two cases only:
    on an empty stack, which it leaves alone, and on a stack whose first
    element is [match], which it removes.  On any other stack it loops
    without end, however much fuel it is given. *)
Theorem _array_remove_first {A} `{EqDecision A} fuel (stack : list A) match_ :
  _array_remove (S fuel) stack match_ true =
  match stack with
  | [] => Next []
  | x :: rest => if decide (x = match_) then Next rest else Spin
  end.
Proof.
  destruct stack as [|x rest]; [done|].
  destruct (decide (x = match_)) as [->|Hne].
  - apply _array_remove_head.
  - by apply _array_remove_spins.
Qed.

(** X17. Inside the queue the two backward scans of the pairing loop
    return the nearest earlier start code with the status asked for, and
    the nearest earlier undetermined start code with the name asked for;
    they return -1 when there is none, and raise nothing. *)
Theorem backward_scans_nearest queue st c i :
  (i <= length queue)%nat ->
  (exists r, _find_start_code_with_status queue st i = Next r
     /\ nearest_before (fun t => ttype t = CODE_START /\ status t = st) queue i r)
  /\ (exists r, _find_start_code_of_type queue c i = Next r
        /\ nearest_before
             (fun t => ttype t = CODE_START /\ status t = UNDETERMINED
                       /\ content t = c) queue i r).
Proof.
  intros Hlen. split.
  - by apply _find_start_code_with_status_spec.
  - by apply _find_start_code_of_type_spec.
Qed.

Lemma backward_scans_nearest_witness :
  (exists r, _find_start_code_with_status queue_crossing UNDETERMINED 2 = Next r
     /\ nearest_before (fun t => ttype t = CODE_START /\ status t = UNDETERMINED)
          queue_crossing 2 r)
  /\ (exists r, _find_start_code_of_type queue_crossing "b" 2 = Next r
        /\ nearest_before
             (fun t => ttype t = CODE_START /\ status t = UNDETERMINED
                       /\ content t = "b") queue_crossing 2 r).
Proof. apply backward_scans_nearest. simpl. lia. Defined.

(** The two scans part on [b][i] before [/b]. *)
Example backward_scans_differ :
  _find_start_code_with_status queue_crossing UNDETERMINED 2 = Next (Some 1%nat)
  /\ _find_start_code_of_type queue_crossing "b" 2 = Next (Some 0%nat).
Proof. split; reflexivity. Qed.

(** Past the end of the queue the scans raise. *)
Example backward_scan_out_of_range :
  _find_start_code_with_status queue_crossing VALID 5 = Raise IndexError.
Proof. reflexivity. Qed.

(** ** [format] on an input with both symbols *)

(** X11. For a parser that has codes to look for, [format] raises
    [TypeError] on every input in which the start symbol and the end
    symbol both occur, whatever the per-call options. *)
Theorem format_type_error p finput fo :
  (0 < bb_code_count p)%nat -> allowed_codes p <> [] ->
  occurs (code_start_symbol p) finput -> occurs (code_end_symbol p) finput ->
  format p finput fo = Exc TypeError.
Proof. apply format_raises. Qed.

Lemma format_type_error_witness :
  format example_parser "a]b[c" keep_going = Exc TypeError.
Proof.
  apply format_type_error.
  - simpl. lia.
  - vm_compute. discriminate.
  - exists "a]b", "c". reflexivity.
  - exists "a", "b[c". reflexivity.
Defined.

(** ** The tokenizer *)

Lemma str_length_app a b :
  String.length (a +:+ b) = (String.length a + String.length b)%nat.
Proof.
  induction a as [|x a IH]; [done|].
  change (String x a +:+ b) with (String x (a +:+ b)). simpl. by rewrite IH.
Qed.

Lemma substring_all s : String.substring 0 (String.length s) s = s.
Proof. induction s as [|c s IH]; simpl; [done | by rewrite IH]. Qed.

Lemma substring_prefix pre post :
  String.substring 0 (String.length pre) (pre +:+ post) = pre.
Proof.
  induction pre as [|c pre IH]; [by destruct post|].
  change (String c pre +:+ post) with (String c (pre +:+ post)).
  simpl. by rewrite IH.
Qed.

Lemma substring_skip a m s :
  String.substring (String.length a) m (a +:+ s) = String.substring 0 m s.
Proof.
  induction a as [|c a IH]; [done|].
  change (String c a +:+ s) with (String c (a +:+ s)). simpl. apply IH.
Qed.

(** [s[start:]] is what is left of [s] after its first [start] characters. *)
Lemma slice_from_split s start :
  (start <= String.length s)%nat ->
  exists a, s = a +:+ PyStr.slice_from s start /\ String.length a = start.
Proof.
  revert s. induction start as [|n IH]; intros s Hlen.
  - exists "". split; [|done]. unfold PyStr.slice_from.
    rewrite Nat.sub_0_r, substring_all. done.
  - destruct s as [|c s]; [simpl in Hlen; lia|].
    destruct (IH s) as (a & Ha & Hla); [simpl in Hlen; lia|].
    exists (String c a). split; [|simpl; by rewrite Hla].
    change (String c a +:+ PyStr.slice_from (String c s) (S n))
      with (String c (a +:+ PyStr.slice_from (String c s) (S n))).
    f_equal. exact Ha.
Qed.

Lemma str_app_eq_nil a b : "" = a +:+ b -> a = "" /\ b = "".
Proof.
  destruct a as [|x a].
  - change ("" +:+ b) with b. intros <-. done.
  - change (String x a +:+ b) with (String x (a +:+ b)). discriminate.
Qed.

(** The first occurrence found by the scan of [find]. *)
Lemma find_at_first sub s k i :
  PyStr.find_at sub s k = Some i ->
  exists pre rest, s = pre +:+ sub +:+ rest
    /\ (k + String.length pre)%nat = i
    /\ forall a b, pre = a +:+ b -> b <> "" ->
         String.prefix sub (b +:+ sub +:+ rest) = false.
Proof.
  revert k. induction s as [|c s IH]; intros k H; cbn [PyStr.find_at] in H.
  - destruct (String.prefix sub "") eqn:Hp; [|discriminate]. simplify_eq.
    apply prefix_true_iff in Hp as [rest Hrest]. exists "", rest.
    split; [done|]. split; [simpl; lia|].
    intros a b Hab Hb. apply str_app_eq_nil in Hab as [_ ->]. done.
  - destruct (String.prefix sub (String c s)) eqn:Hp.
    + simplify_eq. apply prefix_true_iff in Hp as [rest Hrest]. exists "", rest.
      split; [done|]. split; [simpl; lia|].
      intros a b Hab Hb. apply str_app_eq_nil in Hab as [_ ->]. done.
    + destruct (IH _ H) as (pre & rest & Hs & Hi & Hfirst).
      exists (String c pre), rest. split; [|split].
      * change (String c pre +:+ sub +:+ rest)
          with (String c (pre +:+ sub +:+ rest)). by rewrite Hs.
      * simpl. lia.
      * intros a b Hab Hb. destruct a as [|x a].
        -- change ("" +:+ b) with b in Hab. subst b.
           change (String c pre +:+ sub +:+ rest)
             with (String c (pre +:+ sub +:+ rest)). by rewrite <- Hs.
        -- change (String x a +:+ b) with (String x (a +:+ b)) in Hab.
           injection Hab as _ Hab. by apply (Hfirst a).
Qed.

Lemma find_at_None sub s k : PyStr.find_at sub s k = None -> ~ occurs sub s.
Proof.
  revert k. induction s as [|c s IH]; intros k H; cbn [PyStr.find_at] in H.
  - destruct (String.prefix sub "") eqn:Hp; [discriminate|].
    rewrite occurs_nil. intros ->. discriminate Hp.
  - destruct (String.prefix sub (String c s)) eqn:Hp; [discriminate|].
    rewrite occurs_cons. intros [?|?]; [congruence|]. by eapply IH.
Qed.

Lemma first_occurrence_free sub pre rest :
  sub <> "" ->
  (forall a b, pre = a +:+ b -> b <> "" ->
     String.prefix sub (b +:+ sub +:+ rest) = false) ->
  ~ occurs sub pre.
Proof.
  intros Hsub Hfirst (u & v & ->).
  assert (Hp : String.prefix sub ((sub +:+ v) +:+ sub +:+ rest) = false).
  { apply (Hfirst u); [done|]. destruct sub; [done | discriminate]. }
  rewrite str_app_assoc in Hp.
  assert (String.prefix sub (sub +:+ v +:+ sub +:+ rest) = true)
    by (apply prefix_true_iff; eauto).
  congruence.
Qed.

(** No occurrence starts before the index the scan of [find] returns. *)
Lemma find_at_minimal sub s k i pre rest :
  PyStr.find_at sub s k = Some i ->
  s = pre +:+ sub +:+ rest ->
  (i <= k + String.length pre)%nat.
Proof.
  revert k pre. induction s as [|c s IH]; intros k pre H Hs;
    cbn [PyStr.find_at] in H.
  - destruct (String.prefix sub "") eqn:Hp; [|discriminate]. simplify_eq. lia.
  - destruct (String.prefix sub (String c s)) eqn:Hp; [simplify_eq; lia|].
    destruct pre as [|x pre].
    + change ("" +:+ sub +:+ rest) with (sub +:+ rest) in Hs.
      assert (String.prefix sub (String c s) = true)
        by (apply prefix_true_iff; eauto).
      congruence.
    + change (String x pre +:+ sub +:+ rest)
        with (String x (pre +:+ sub +:+ rest)) in Hs.
      injection Hs as _ Hs. specialize (IH _ _ H Hs). simpl. lia.
Qed.

(** X19. [next_token] returns the remaining text up to the first
    occurrence of the delimiter (no occurrence of the delimiter in the
    remaining text starts before the end of the token, also when the
    delimiter overlaps itself), or all of the remaining text when the
    delimiter does not occur in it; a non-empty delimiter never occurs in
    the token.  The position moves past the token by one character,
    whatever the length of the delimiter. *)
Theorem next_token_first_occurrence tok delimiter x tok' :
  tk_length tok = String.length (tk_input tok) ->
  Tokenizer.next_token tok delimiter = (Some x, tok') ->
  tk_input tok' = tk_input tok /\ tk_length tok' = tk_length tok
  /\ tk_position tok' = (tk_position tok + String.length x + 1)%nat
  /\ (delimiter <> "" -> ~ occurs delimiter x)
  /\ ((exists rest,
         PyStr.slice_from (tk_input tok) (tk_position tok)
         = x +:+ delimiter +:+ rest
         /\ forall x' rest',
              PyStr.slice_from (tk_input tok) (tk_position tok)
              = x' +:+ delimiter +:+ rest' ->
              (String.length x <= String.length x')%nat)
      \/ (x = PyStr.slice_from (tk_input tok) (tk_position tok)
          /\ ~ occurs delimiter x)).
Proof.
  intros Hlen. unfold Tokenizer.next_token.
  destruct (tk_length tok <=? tk_position tok)%nat eqn:E; [discriminate|].
  apply Nat.leb_gt in E.
  destruct (slice_from_split (tk_input tok) (tk_position tok)) as (a & Ha & Hla);
    [lia|].
  set (t := PyStr.slice_from (tk_input tok) (tk_position tok)) in *.
  unfold PyStr.find. rewrite <- Hlen.
  assert ((tk_length tok <? tk_position tok)%nat = false) as ->
    by (apply Nat.ltb_ge; lia).
  fold t. destruct (PyStr.find_at delimiter t (tk_position tok)) as [i|] eqn:F.
  - destruct (find_at_first _ _ _ _ F) as (pre & rest & Ht & Hi & Hfirst).
    intros [= <- <-]. simpl.
    assert (Hx : PyStr.slice (tk_input tok) (tk_position tok) i = pre).
    { unfold PyStr.slice. rewrite Ha, Ht, <- Hla, substring_skip.
      replace (i - String.length a)%nat with (String.length pre) by lia.
      apply substring_prefix. }
    rewrite Hx. split; [done|]. split; [done|]. split; [lia|]. split.
    + intros Hd. by eapply first_occurrence_free.
    + left. exists rest. split; [done|].
      intros x' rest' Hx'. pose proof (find_at_minimal _ _ _ _ _ _ F Hx'). lia.
  - intros [= <- <-]. simpl.
    assert (Hx : PyStr.slice (tk_input tok) (tk_position tok) (tk_length tok) = t).
    { unfold PyStr.slice, t, PyStr.slice_from. by rewrite Hlen. }
    rewrite Hx. apply find_at_None in F.
    assert (String.length t = (tk_length tok - tk_position tok)%nat).
    { pose proof (f_equal String.length Ha) as Hl.
      rewrite str_length_app in Hl. lia. }
    split; [done|]. split; [done|]. split; [lia|]. split; [done|]. by right.
Qed.

Lemma next_token_first_occurrence_witness :
  tk_input {| tk_input := "baaa"; tk_length := 4; tk_position := 2 |}
    = tk_input (Tokenizer.init "baaa")
  /\ tk_length {| tk_input := "baaa"; tk_length := 4; tk_position := 2 |}
     = tk_length (Tokenizer.init "baaa")
  /\ tk_position {| tk_input := "baaa"; tk_length := 4; tk_position := 2 |}
     = (tk_position (Tokenizer.init "baaa") + String.length "b" + 1)%nat
  /\ ("aa" <> "" -> ~ occurs "aa" "b")
  /\ ((exists rest,
         PyStr.slice_from (tk_input (Tokenizer.init "baaa"))
           (tk_position (Tokenizer.init "baaa"))
         = "b" +:+ "aa" +:+ rest
         /\ forall x' rest',
              PyStr.slice_from (tk_input (Tokenizer.init "baaa"))
                (tk_position (Tokenizer.init "baaa"))
              = x' +:+ "aa" +:+ rest' ->
              (String.length "b" <= String.length x')%nat)
      \/ ("b" = PyStr.slice_from (tk_input (Tokenizer.init "baaa"))
                  (tk_position (Tokenizer.init "baaa"))
          /\ ~ occurs "aa" "b")).
Proof.
  apply (next_token_first_occurrence (Tokenizer.init "baaa") "aa").
  - reflexivity.
  - reflexivity.
Defined.

(** On [baaa] the delimiter [aa] occurs at 1 and at 2; the token ends at
    the first of them, and a token that ended at the second would not be
    the shortest text before an occurrence. *)
Example next_token_overlapping_delimiter :
  Tokenizer.next_token (Tokenizer.init "baaa") "aa"
  = (Some "b", {| tk_input := "baaa"; tk_length := 4; tk_position := 2 |})
  /\ "baaa" = "ba" +:+ "aa" +:+ "" /\ "baaa" = "b" +:+ "aa" +:+ "a".
Proof. repeat split. Qed.

(** After a delimiter of two characters the next token starts with the
    second of them. *)
Example next_token_long_delimiter :
  Tokenizer.next_token
    {| tk_input := "ab[[cd"; tk_length := 6; tk_position := 3 |} "]"
  = (Some "[cd", {| tk_input := "ab[[cd"; tk_length := 6; tk_position := 7 |}).
Proof. reflexivity. Qed.

(** X21. [has_next_token] holds exactly when the delimiter occurs in the
    text from the position on; past the end that text is empty, so only
    the empty delimiter is found there. *)
Theorem has_next_token_occurs tok delimiter :
  tk_length tok = String.length (tk_input tok) ->
  Tokenizer.has_next_token tok delimiter = true
  <-> occurs delimiter
        (PyStr.slice_from (tk_input tok)
           (Nat.min (tk_length tok) (tk_position tok))).
Proof.
  intros Hlen. unfold Tokenizer.has_next_token, PyStr.find.
  assert ((String.length (tk_input tok)
           <? Nat.min (tk_length tok) (tk_position tok))%nat = false) as ->
    by (apply Nat.ltb_ge; lia).
  set (t := PyStr.slice_from _ _).
  destruct (PyStr.find_at delimiter t _) as [i|] eqn:F.
  - rewrite bool_decide_eq_true_2 by done.
    destruct (find_at_first _ _ _ _ F) as (pre & rest & Ht & _). split; [|done].
    intros _. exists pre, rest. done.
  - rewrite bool_decide_eq_false_2 by (intros H; by apply H).
    apply find_at_None in F. split; [discriminate | done].
Qed.

Lemma has_next_token_occurs_witness :
  Tokenizer.has_next_token (Tokenizer.init "ab[cd") "[" = true
  <-> occurs "["
        (PyStr.slice_from (tk_input (Tokenizer.init "ab[cd"))
           (Nat.min (tk_length (Tokenizer.init "ab[cd"))
              (tk_position (Tokenizer.init "ab[cd")))).
Proof. apply has_next_token_occurs. reflexivity. Defined.

(** ** Queueing a code (lines 403-444) *)

Lemma slice_from_tail c s : PyStr.slice_from (String c s) 1 = s.
Proof.
  unfold PyStr.slice_from. simpl. rewrite Nat.sub_0_r. apply substring_all.
Qed.

Lemma set_last_status_snoc st (l : list Token) x :
  set_last_status st (l ++ [x]) = l ++ [with_status st x].
Proof.
  unfold set_last_status. rewrite length_app. simpl.
  replace (length l + 1 - 1)%nat with (length l + 0)%nat by lia.
  by rewrite alter_app_r.
Qed.

Lemma auto_close_Next codes name auto queue stack queue' stack' :
  auto_close codes name auto queue stack = Next (queue', stack') ->
  queue' = queue
  \/ exists a, is_Some (codes !! a)
       /\ queue' = queue ++ [mkToken CODE_END ("/" +:+ a) None].
Proof.
  unfold auto_close. destruct auto as [a|]; [|intros [= <- _]; by left].
  destruct (is_valid_key codes name); [|intros [= <- _]; by left].
  destruct (PyStr.truthy (Some a)); [|intros [= <- _]; by left].
  destruct (is_valid_key codes a) eqn:Hv; [|intros [= <- _]; by left].
  destruct (bool_decide (a ∈ stack)); [|intros [= <- _]; by left].
  cbn [andb]. destruct (_array_remove _ stack a true); simpl; try discriminate.
  intros [= <- _]. right. exists a. split; [|done].
  by apply bool_decide_eq_true in Hv.
Qed.

(** X20. Every code these statements queue has a handler, and none gets
    the status of a code without implementation: the name has been looked
    up in the registry before it is checked, so an unregistered name has
    raised [KeyError] by then. *)
Theorem emit_code_registered allowed codes c queue stack queue' stack' :
  emit_code allowed codes (Some c) queue stack = Next (queue', stack') ->
  exists new, queue' = queue ++ new /\ new <> []
    /\ Forall (fun t => status t <> NOIMPLFOUND
                 /\ ((ttype t = CODE_START /\ is_Some (codes !! content t))
                     \/ (ttype t = CODE_END /\ is_Some (codes !! closed_name t))))
         new.
Proof.
  unfold emit_code.
  destruct (match PyStr.rfind c "=" with
            | Some equals =>
                (PyStr.slice c 0 equals, Some (PyStr.slice_from c (equals + 1)))
            | None => (c, None)
            end) as [code_display_name code_argument].
  assert (Hsynth : forall a, is_Some (codes !! a) ->
            status (mkToken CODE_END ("/" +:+ a) None) <> NOIMPLFOUND
            /\ ((ttype (mkToken CODE_END ("/" +:+ a) None) = CODE_START
                 /\ is_Some (codes !! content (mkToken CODE_END ("/" +:+ a) None)))
                \/ (ttype (mkToken CODE_END ("/" +:+ a) None) = CODE_END
                    /\ is_Some (codes !! closed_name
                                  (mkToken CODE_END ("/" +:+ a) None))))).
  { intros a Ha. split; [done|]. right. split; [done|].
    unfold closed_name. simpl content.
    change ("/" +:+ a) with (String "/" a). by rewrite slice_from_tail. }
  destruct (String.eqb (PyStr.slice c 0 1) "/").
  - unfold getitem.
    destruct (codes !! PyStr.slice_from code_display_name 1) as [h|] eqn:Hh;
      [|discriminate].
    simpl.
    destruct (auto_close codes _ _ queue stack) as [[q1 st1]| | |] eqn:Hac;
      simpl; try discriminate.
    unfold is_valid_key. rewrite Hh.
    rewrite bool_decide_eq_true_2 by eauto. simpl.
    set (tok := mkToken CODE_END code_display_name None).
    assert (Htok : forall st, st <> NOIMPLFOUND ->
              status (with_status st tok) <> NOIMPLFOUND
              /\ ((ttype (with_status st tok) = CODE_START
                   /\ is_Some (codes !! content (with_status st tok)))
                  \/ (ttype (with_status st tok) = CODE_END
                      /\ is_Some (codes !! closed_name (with_status st tok))))).
    { intros st Hst. split; [done|]. right. split; [done|].
      unfold closed_name. simpl. eauto. }
    apply auto_close_Next in Hac as [-> | (a & Ha & ->)];
      destruct (negb (bool_decide (_ ∈ allowed))); intros [= <- _];
      rewrite ?set_last_status_snoc.
    + exists [with_status NOTALLOWED tok]. split; [done|]. split; [done|].
      constructor; [by apply Htok | constructor].
    + exists [tok]. split; [done|]. split; [done|].
      constructor; [apply (Htok UNDETERMINED); done | constructor].
    + exists [mkToken CODE_END ("/" +:+ a) None; with_status NOTALLOWED tok].
      split; [by rewrite <- app_assoc|]. split; [done|].
      constructor; [by apply Hsynth|]. constructor; [by apply Htok | constructor].
    + exists [mkToken CODE_END ("/" +:+ a) None; tok].
      split; [by rewrite <- app_assoc|]. split; [done|].
      constructor; [by apply Hsynth|].
      constructor; [apply (Htok UNDETERMINED); done | constructor].
  - unfold getitem.
    destruct (codes !! code_display_name) as [h|] eqn:Hh; [|discriminate].
    simpl.
    destruct (auto_close codes _ _ queue stack) as [[q1 st1]| | |] eqn:Hac;
      simpl; try discriminate.
    unfold is_valid_key. rewrite Hh.
    rewrite bool_decide_eq_true_2 by eauto. simpl.
    set (tok := mkToken CODE_START code_display_name code_argument).
    assert (Htok : forall st, st <> NOIMPLFOUND ->
              status (with_status st tok) <> NOIMPLFOUND
              /\ ((ttype (with_status st tok) = CODE_START
                   /\ is_Some (codes !! content (with_status st tok)))
                  \/ (ttype (with_status st tok) = CODE_END
                      /\ is_Some (codes !! closed_name (with_status st tok))))).
    { intros st Hst. split; [done|]. left. split; [done|]. simpl. eauto. }
    apply auto_close_Next in Hac as [-> | (a & Ha & ->)];
      destruct (negb (bool_decide (_ ∈ allowed))); intros [= <- _];
      rewrite ?set_last_status_snoc.
    + exists [with_status NOTALLOWED tok]. split; [done|]. split; [done|].
      constructor; [by apply Htok | constructor].
    + exists [tok]. split; [done|]. split; [done|].
      constructor; [apply (Htok UNDETERMINED); done | constructor].
    + exists [mkToken CODE_END ("/" +:+ a) None; with_status NOTALLOWED tok].
      split; [by rewrite <- app_assoc|]. split; [done|].
      constructor; [by apply Hsynth|]. constructor; [by apply Htok | constructor].
    + exists [mkToken CODE_END ("/" +:+ a) None; tok].
      split; [by rewrite <- app_assoc|]. split; [done|].
      constructor; [by apply Hsynth|].
      constructor; [apply (Htok UNDETERMINED); done | constructor].
Qed.

Lemma emit_code_registered_witness :
  exists new,
    [mkToken CODE_START "*" None; mkToken CONTENT "A" None;
     mkToken CODE_END "/*" None; mkToken CODE_START "*" None]
    = [mkToken CODE_START "*" None; mkToken CONTENT "A" None] ++ new
    /\ new <> []
    /\ Forall (fun t => status t <> NOIMPLFOUND
                 /\ ((ttype t = CODE_START /\ is_Some (parser_codes !! content t))
                     \/ (ttype t = CODE_END
                         /\ is_Some (parser_codes !! closed_name t))))
         new.
Proof.
  apply (emit_code_registered (allowed_codes example_parser) parser_codes "*"
           [mkToken CODE_START "*" None; mkToken CONTENT "A" None] ["*"]
           [mkToken CODE_START "*" None; mkToken CONTENT "A" None;
            mkToken CODE_END "/*" None; mkToken CODE_START "*" None] ["*"]).
  vm_compute. reflexivity.
Defined.

(** ** What the loop that builds the queue can leave *)

(** X22. When the loop that builds the queue leaves normally, every code
    it met was empty: the stack is as it was, and the tokens it added are
    content tokens that end in the two characters [[]], whatever the start
    and end symbols are. *)
Theorem build_queue_content_only allowed codes start_symbol end_symbol fuel
    tok queue stack queue' stack' tok' :
  build_queue allowed codes start_symbol end_symbol fuel tok queue stack
    = Next (queue', stack', tok') ->
  stack' = stack
  /\ exists new, queue' = queue ++ new
       /\ Forall (fun t => ttype t = CONTENT /\ status t = VALID
                           /\ exists before, content t = before +:+ "[]") new.
Proof.
  revert tok queue. induction fuel as [|fuel IH]; intros tok queue; [done|].
  cbn [build_queue].
  destruct (Tokenizer.has_next_token tok start_symbol).
  2:{ intros [= <- <- _]. split; [done|]. exists []. by rewrite app_nil_r. }
  destruct (Tokenizer.next_token tok start_symbol) as [before tok1].
  destruct (Tokenizer.next_token tok1 end_symbol) as [code tok2].
  destruct (negb (bool_decide (code = Some ""))).
  - destruct before; discriminate.
  - destruct before as [b|]; [|discriminate].
    intros H. apply IH in H as (-> & new & -> & Hall). split; [done|].
    exists (mkToken CONTENT (b +:+ "[]") None :: new).
    split; [by rewrite <- app_assoc|]. constructor; [|done]. eauto.
Qed.

Lemma build_queue_content_only_witness :
  ([] : list string) = []
  /\ exists new, [mkToken CONTENT "x[]" None] = [] ++ new
       /\ Forall (fun t => ttype t = CONTENT /\ status t = VALID
                           /\ exists before, content t = before +:+ "[]") new.
Proof.
  apply (build_queue_content_only (allowed_codes example_parser) parser_codes
           "<" ">" 5 (Tokenizer.init "x<>y") [] []
           [mkToken CONTENT "x[]" None] []
           {| tk_input := "x<>y"; tk_length := 4; tk_position := 3 |}).
  vm_compute. reflexivity.
Defined.

(** ** The rules checked on a start code *)



(** X24. A valid start code that keeps the rules on arguments and whose
    parent may hold codes, but whose handler rejects that parent, makes
    the check raise, with or without all-or-nothing: [IndexError] when its
    match is an index other than 0 that lies past the end of the queue
    (line 546), [NameError] in every other case (line 549).  The input is
    never returned for a rejected parent. *)
Theorem validate_start_rejected_parent sett codes aon finput queue i token h r parent :
  queue !! i = Some token ->
  ttype token = CODE_START -> status token = VALID ->
  codes !! content token = Some h ->
  _find_parent_start_code queue i = Next r ->
  (can_have_argument h = true ->
   is_valid_argument h sett (argument token) = true) ->
  (can_have_argument h = false -> PyStr.truthy (argument token) = false) ->
  (must_have_argument h = true -> PyStr.truthy (argument token) = true) ->
  match r with
  | None => parent = "GLOBAL"
  | Some p => exists pt ph, queue !! p = Some pt /\ codes !! content pt = Some ph
                /\ can_have_code_content ph = true /\ parent = content pt
  end ->
  is_valid_parent h sett (Some parent) = false ->
  validate_start sett codes aon finput queue i =
    Raise (match matches token with
           | Some m => if (0 <? m)%nat && (length queue <=? m)%nat
                       then IndexError else NameError
           | None => NameError
           end).
Proof.
  intros Hi Hty Hst Hh Hparent Hvalid Hnone Hmust Hr Hreject.
  assert (Hlast :
    (queue' ←
       match matches token with
       | Some m =>
           if (0 <? m)%nat then
             if (m <? length queue)%nat
             then Next (alter (with_status INVALID) m queue)
             else Raise IndexError
           else Next queue
       | None => Next queue
       end;
     (Raise NameError : flow (list Token))) =
    Raise (match matches token with
           | Some m => if (0 <? m)%nat && (length queue <=? m)%nat
                       then IndexError else NameError
           | None => NameError
           end)).
  { destruct (matches token) as [m|]; [|done].
    destruct (0 <? m)%nat; cbn [andb]; [|done].
    destruct (Nat.ltb_spec m (length queue)), (Nat.leb_spec (length queue) m);
      try lia; done. }
  unfold validate_start. rewrite Hi, Hst.
  rewrite !bool_decide_eq_true_2 by done. cbn [andb].
  rewrite Hparent. cbn [mbind flow_bind]. unfold getitem. rewrite Hh.
  cbn [mbind flow_bind]. rewrite (bool_decide_eq_false_2 (VALID = UNDETERMINED))
    by done.
  assert (Hrules :
    false && needs_end h
    || can_have_argument h && negb (is_valid_argument h sett (argument token))
    || negb (can_have_argument h) && PyStr.truthy (argument token)
    || must_have_argument h && negb (PyStr.truthy (argument token)) = false).
  { destruct (can_have_argument h); cbn [andb orb negb].
    - rewrite Hvalid by done. cbn [andb orb negb].
      destruct (must_have_argument h); cbn [andb orb negb]; [|done].
      by rewrite Hmust.
    - rewrite Hnone by done. cbn [andb orb negb].
      destruct (must_have_argument h); cbn [andb orb negb]; [|done].
      pose proof (Hnone eq_refl). pose proof (Hmust eq_refl). congruence. }
  rewrite Hrules.
  destruct r as [p|].
  - destruct Hr as (pt & ph & Hp & Hph & Hcontent & ->).
    rewrite Hp, Hph. cbn [mbind flow_bind]. rewrite Hcontent.
    cbn [negb mbind flow_bind]. rewrite Hp. cbn [mbind flow_bind].
    rewrite Hi, Hst. rewrite bool_decide_eq_true_2 by done. rewrite Hh.
    cbn [mbind flow_bind]. rewrite Hreject. cbn [negb]. exact Hlast.
  - subst parent. cbn [mbind flow_bind]. rewrite Hi, Hst.
    rewrite bool_decide_eq_true_2 by done. rewrite Hh.
    cbn [mbind flow_bind]. rewrite Hreject. cbn [negb]. exact Hlast.
Qed.

Lemma validate_start_rejected_parent_witness :
  validate_start default_settings parser_codes false "[li]x[/li]"
    queue_list_item_paired 0 = Raise NameError
  /\ validate_start default_settings parser_codes false "[li]"
       queue_dangling_match 0 = Raise IndexError.
Proof.
  split.
  - refine (validate_start_rejected_parent default_settings parser_codes false
              "[li]x[/li]" queue_list_item_paired 0
              (with_matches (Some 2%nat)
                 (with_status VALID (mkToken CODE_START "li" None)))
              HTMLListItemBBCode None "GLOBAL" _ _ _ _ _ _ _ _ _ _);
      try reflexivity; discriminate.
  - refine (validate_start_rejected_parent default_settings parser_codes false
              "[li]" queue_dangling_match 0
              (with_matches (Some 7%nat)
                 (with_status VALID (mkToken CODE_START "li" None)))
              HTMLListItemBBCode None "GLOBAL" _ _ _ _ _ _ _ _ _ _);
      try reflexivity; discriminate.
Defined.

(** [reset] gives back the tokenizer of the input. *)
Lemma reset_after_next_token tok delimiter x tok' :
  tk_length tok = String.length (tk_input tok) ->
  Tokenizer.next_token tok delimiter = (x, tok') ->
  Tokenizer.reset tok' = Tokenizer.init (tk_input tok).
Proof.
  intros Hlen. unfold Tokenizer.next_token.
  destruct (_ <=? _)%nat; intros [= <- <-]; unfold Tokenizer.reset, Tokenizer.init;
    simpl; by rewrite Hlen.
Qed.
